(** * VoTT editor canvas: region bookkeeping of the [Canvas] component

    A shallow embedding of [canvas.tsx] (the [Canvas] React component) and of
    [canvasHelpers.ts].  JavaScript arrays and region objects are mutable and
    shared by reference, so the component is modelled over an explicit store:
    region objects and arrays live in two heaps, handlers are state
    transformers that either return or throw, and a thrown exception keeps
    every mutation made before it. *)

From Stdlib Require Import ZArith.
From stdpp Require Import base option list strings.

Local Open Scope Z_scope.

(** ** JavaScript array primitives used by the sources *)

(** [Array.prototype.findIndex]: index of the first element accepted by the
    callback, [-1] when there is none. *)
Fixpoint Array_findIndexFrom {A} (p : A → bool) (i : Z) (l : list A) : Z :=
  match l with
  | [] => -1
  | x :: l' => if p x then i else Array_findIndexFrom p (i + 1) l'
  end.

Definition Array_findIndex {A} (p : A → bool) (l : list A) : Z :=
  Array_findIndexFrom p 0 l.

(** [Array.prototype.find]: the first accepted element, [None] standing for
    [undefined]. *)
Fixpoint Array_find {A} (p : A → bool) (l : list A) : option A :=
  match l with
  | [] => None
  | x :: l' => if p x then Some x else Array_find p l'
  end.

(** [Array.prototype.splice(start, 1)].  A negative [start] counts from the
    end of the array ([max (len + start) 0]); a [start] beyond the end is
    clamped to [len], where nothing is left to delete. *)
Definition Array_splice1 {A} (start : Z) (l : list A) : list A :=
  let len := Z.of_nat (length l) in
  let actualStart :=
    if start <? 0 then Z.max (len + start) 0 else Z.min start len in
  delete (Z.to_nat actualStart) l.

(** [Array.prototype.push] of one element. *)
Definition Array_push {A} (l : list A) (x : A) : list A := l ++ [x].

(** The same two searches with a callback that may throw ([None]): the
    search stops at the first exception. *)
Fixpoint Array_findIndexE {A} (p : A → option bool) (i : Z) (l : list A)
  : option Z :=
  match l with
  | [] => Some (-1)
  | x :: l' =>
      match p x with
      | None => None
      | Some true => Some i
      | Some false => Array_findIndexE p (i + 1) l'
      end
  end.

Fixpoint Array_findE {A} (p : A → option bool) (l : list A)
  : option (option A) :=
  match l with
  | [] => Some None
  | x :: l' =>
      match p x with
      | None => None
      | Some true => Some (Some x)
      | Some false => Array_findE p l'
      end
  end.

(** ** canvasHelpers.ts: tag helpers

    The helpers mutate [tags] in place and return nothing; each definition
    gives the contents of the array after the call. *)

Definition toggleTag (tags : list string) (tag : string) : list string :=
  let tagIndex :=
    Array_findIndex (λ existingTag, bool_decide (existingTag = tag)) tags in
  if tagIndex =? -1 then Array_push tags tag
  else Array_splice1 tagIndex tags.

Definition find (tags : list string) (tag : string) : option string :=
  Array_find (λ t, bool_decide (t = tag)) tags.

Definition findIndex (tags : list string) (tag : string) : Z :=
  Array_findIndex (λ t, bool_decide (t = tag)) tags.

(** JavaScript truthiness of a [string | undefined]: [undefined] and the
    empty string are falsy. *)
Definition truthy (v : option string) : bool :=
  match v with
  | None => false
  | Some s => negb (bool_decide (s = EmptyString))
  end.

Definition addIfMissing (tags : list string) (tag : string) : list string :=
  if negb (truthy (find tags tag)) then Array_push tags tag else tags.

Definition addAllIfMissing (tags targets : list string) : list string :=
  foldl addIfMissing tags targets.

Definition removeIfContained (tags : list string) (tag : string)
  : list string :=
  let index := findIndex tags tag in
  if 0 <=? index then Array_splice1 index tags else tags.

(** ** Data model (models/applicationState) *)

Section Canvas.

(** JavaScript numbers (pixel coordinates) are kept abstract. *)
Context {number : Type}.

(** [RegionType] is declared in models/applicationState, outside these
    sources.  The four members are those the sources name;
    [OtherRegionType] is any other value a region's [type] may hold. *)
Inductive RegionType :=
  Rectangle | Polygon | Point | Polyline | OtherRegionType.

(** [RegionDataType] of the drawing surface. *)
Inductive RegionDataType := Rect | PolygonData | PointData | PolylineData.

Record Point2D := { px : number; py : number }.

Record IBoundingBox :=
  { bb_left : number; bb_top : number; bb_width : number; bb_height : number }.

(** [tags] is [None] once the field holds [undefined]. *)
Record IRegion := {
  region_id : string;
  region_type : RegionType;
  region_tags : option (list string);
  region_points : list Point2D;
  region_boundingBox : IBoundingBox;
}.

(** Geometry handed to and received from the drawing surface. *)
Record RegionData := {
  rd_x : number; rd_y : number; rd_width : number; rd_height : number;
  rd_points : list Point2D;
  rd_type : option RegionDataType;
}.

Record ITag := { tag_name : string; tag_color : string }.

(** A [TagsDescriptor] wraps the [Tag]s (name and color) built for it. *)
Definition TagsDescriptor := list ITag.

(** Modelled from the spec: the [AssetState] enumeration is declared in
    models/applicationState; the spec lists Unvisited, Visited and Tagged. *)
Inductive AssetState := NotVisited | Visited | Tagged.

Record IAsset := { asset_id : string; asset_state : AssetState }.

(** Addresses of region objects and of arrays in the store. *)
Definition loc := nat.

(** A reference to a region object, or [undefined]. *)
Definition ref := option loc.

(** [regions] is the address of the asset's array of regions. *)
Record IAssetMetadata := { asset : IAsset; regions : loc }.

(** An array of region references.  [minus1] is the own property named
    [-1], which an assignment [a[-1] = v] creates next to the elements. *)
Record RegionArray := { items : list ref; minus1 : option ref }.

(** The armed tags.  [tags_ref] is the identity of the array, compared by
    [!==] in [componentDidUpdate]; the tags are passed to [toggleTag] and
    are modelled as the tag names it expects. *)
Record TagArray := { tags_ref : nat; tags_items : list string }.

(** [SelectionMode] of the drawing surface: an opaque code. *)
Definition SelectionMode := nat.

Record ICanvasProps := {
  selectedAsset : IAssetMetadata;
  editorMode : RegionType;
  selectionMode : SelectionMode;
  selectedTags : option TagArray;
}.

Record ICanvasState := {
  selectedRegions : option loc;
  canvasEnabled : bool;
  multiSelect : bool;
}.

(** Modelled from the spec: the rendering surface ([Editor] and its
    [RegionsManager] [RM], from vott-ct) keeps the regions it draws, each
    under its id with its geometry and tag descriptor, and a selection
    mode. *)
Record SurfaceRegion := {
  surface_id : string;
  surface_data : RegionData;
  surface_tags : option TagsDescriptor;
}.

Record Editor := { RM : list SurfaceRegion; AS : SelectionMode }.

(** The component with everything it reaches: the store ([regionObjects],
    [arrays]), its props and state, the clipboard, the surface, the calls
    made to [onAssetMetadataChanged] (oldest first; [None] for an
    [undefined] argument) and the number of ids drawn from [shortid]. *)
Record Canvas := {
  regionObjects : list IRegion;
  arrays : list RegionArray;
  props : ICanvasProps;
  state : ICanvasState;
  clipBoard : option (list (option IRegion));
  editor : Editor;
  host : list (option IAssetMetadata);
  shortid : nat;
}.

Definition with_regionObjects (v : list IRegion) (c : Canvas) : Canvas :=
  {| regionObjects := v; arrays := arrays c; props := props c;
     state := state c; clipBoard := clipBoard c; editor := editor c;
     host := host c; shortid := shortid c |}.

Definition with_arrays (v : list RegionArray) (c : Canvas) : Canvas :=
  {| regionObjects := regionObjects c; arrays := v; props := props c;
     state := state c; clipBoard := clipBoard c; editor := editor c;
     host := host c; shortid := shortid c |}.

Definition with_props (v : ICanvasProps) (c : Canvas) : Canvas :=
  {| regionObjects := regionObjects c; arrays := arrays c; props := v;
     state := state c; clipBoard := clipBoard c; editor := editor c;
     host := host c; shortid := shortid c |}.

Definition with_state (v : ICanvasState) (c : Canvas) : Canvas :=
  {| regionObjects := regionObjects c; arrays := arrays c; props := props c;
     state := v; clipBoard := clipBoard c; editor := editor c;
     host := host c; shortid := shortid c |}.

Definition with_clipBoard (v : option (list (option IRegion))) (c : Canvas)
  : Canvas :=
  {| regionObjects := regionObjects c; arrays := arrays c; props := props c;
     state := state c; clipBoard := v; editor := editor c;
     host := host c; shortid := shortid c |}.

Definition with_editor (v : Editor) (c : Canvas) : Canvas :=
  {| regionObjects := regionObjects c; arrays := arrays c; props := props c;
     state := state c; clipBoard := clipBoard c; editor := v;
     host := host c; shortid := shortid c |}.

Definition with_host (v : list (option IAssetMetadata)) (c : Canvas)
  : Canvas :=
  {| regionObjects := regionObjects c; arrays := arrays c; props := props c;
     state := state c; clipBoard := clipBoard c; editor := editor c;
     host := v; shortid := shortid c |}.

Definition with_shortid (v : nat) (c : Canvas) : Canvas :=
  {| regionObjects := regionObjects c; arrays := arrays c; props := props c;
     state := state c; clipBoard := clipBoard c; editor := editor c;
     host := host c; shortid := v |}.

(** ** Handlers: state transformers that return or throw *)

Inductive Outcome (A : Type) :=
  | Return (a : A) (c : Canvas)
  | Throw (c : Canvas).
Arguments Return {A} a c.
Arguments Throw {A} c.

Definition Handler (A : Type) := Canvas → Outcome A.

Definition ret {A} (a : A) : Handler A := λ c, Return a c.
Definition throw {A} : Handler A := λ c, Throw c.
Definition bind {A B} (m : Handler A) (k : A → Handler B) : Handler B :=
  λ c, match m c with
       | Return a c' => k a c'
       | Throw c' => Throw c'
       end.

Definition get : Handler Canvas := λ c, Return c c.
Definition modify (f : Canvas → Canvas) : Handler unit := λ c, Return tt (f c).

(** The component after a handler ran, whether it returned or threw. *)
Definition after {A} (o : Outcome A) : Canvas :=
  match o with Return _ c => c | Throw c => c end.

Definition returned {A} (o : Outcome A) : bool :=
  match o with Return _ _ => true | Throw _ => false end.

Notation "'let!' x ':=' m 'in' k" := (bind m (λ x, k))
  (at level 10, x name, m at level 100, k at level 200).
Notation "m >> k" := (bind m (λ _, k))
  (at level 100, k at level 200, right associativity).

Definition liftE {A} (o : option A) : Handler A :=
  match o with Some a => ret a | None => throw end.

(** Loop over a local array that nothing else can reach. *)
Fixpoint forEach {A} (l : list A) (body : A → Handler unit) : Handler unit :=
  match l with
  | [] => ret tt
  | x :: l' => body x >> forEach l' body
  end.

(** *** The store *)

Definition readArray (a : loc) : Handler RegionArray :=
  λ c, match arrays c !! a with
       | Some arr => Return arr c
       | None => Throw c
       end.

Definition writeArray (a : loc) (arr : RegionArray) : Handler unit :=
  modify (λ c, with_arrays (<[a := arr]> (arrays c)) c).

(** An array literal: a new array object. *)
Definition newArray (l : list ref) : Handler loc :=
  λ c, Return (length (arrays c))
         (with_arrays (arrays c ++ [{| items := l; minus1 := None |}]) c).

(** Reading a property of [r]: a [TypeError] when [r] is [undefined]. *)
Definition deref (r : ref) : Handler IRegion :=
  λ c, match r with
       | Some l =>
           match regionObjects c !! l with
           | Some o => Return o c
           | None => Throw c
           end
       | None => Throw c
       end.

Definition writeObject (l : loc) (o : IRegion) : Handler unit :=
  modify (λ c, with_regionObjects (<[l := o]> (regionObjects c)) c).

Definition newObject (o : IRegion) : Handler loc :=
  λ c, Return (length (regionObjects c))
         (with_regionObjects (regionObjects c ++ [o]) c).

(** The callback [(region) => region.id === id], which throws on an
    [undefined] element. *)
Definition hasId (objs : list IRegion) (id : string) (r : ref)
  : option bool :=
  match r with
  | Some l =>
      match objs !! l with
      | Some o => Some (bool_decide (region_id o = id))
      | None => None
      end
  | None => None
  end.

(** The callback [(r) => r.id === selectedRegion.id]: it reads [r.id], then
    [selectedRegion.id], and throws when either is [undefined]. *)
Definition sameId (objs : list IRegion) (selectedRegion r : ref)
  : option bool :=
  o ← r ≫= (objs !!.);
  s ← selectedRegion ≫= (objs !!.);
  Some (bool_decide (region_id o = region_id s)).

(** [arr[i]] and [arr[i] = v] for an index returned by [findIndex]: a
    position of the array or [-1], which names a property and not an
    element. *)
Definition Array_get (arr : RegionArray) (i : Z) : ref :=
  if i <? 0 then default None (minus1 arr)
  else default None (items arr !! Z.to_nat i).

Definition Array_set (arr : RegionArray) (i : Z) (v : ref) : RegionArray :=
  if i <? 0 then {| items := items arr; minus1 := Some v |}
  else {| items := <[Z.to_nat i := v]> (items arr); minus1 := minus1 arr |}.

(** [for (const x of a)] over an array in the store.  The iterator reads
    the array afresh at every step, so elements removed by the body are
    skipped.  No loop body of the component lengthens an array, so the
    length at entry bounds the number of steps. *)
Fixpoint forOfFrom (steps : nat) (a : loc) (i : nat)
    (body : ref → Handler unit) : Handler unit :=
  match steps with
  | O => ret tt
  | S steps' =>
      let! arr := readArray a in
      match items arr !! i with
      | None => ret tt
      | Some x => body x >> forOfFrom steps' a (S i) body
      end
  end.

Definition forOf (a : loc) (body : ref → Handler unit) : Handler unit :=
  let! arr := readArray a in
  forOfFrom (length (items arr)) a 0 body.

(** *** The rendering surface and the host *)

Definition RM_addRegion (id : string) (data : RegionData)
    (td : option TagsDescriptor) : Handler unit :=
  modify (λ c,
    with_editor {| RM := RM (editor c) ++
                         [{| surface_id := id; surface_data := data;
                             surface_tags := td |}];
                   AS := AS (editor c) |} c).

Definition RM_deleteRegionById (id : string) : Handler unit :=
  modify (λ c,
    with_editor {| RM := filter (λ s, surface_id s ≠ id) (RM (editor c));
                   AS := AS (editor c) |} c).

Definition RM_deleteAllRegions : Handler unit :=
  modify (λ c, with_editor {| RM := []; AS := AS (editor c) |} c).

Definition RM_updateTagsById (id : string) (td : TagsDescriptor)
  : Handler unit :=
  modify (λ c,
    with_editor
      {| RM := (λ s, if bool_decide (surface_id s = id)
                     then {| surface_id := surface_id s;
                             surface_data := surface_data s;
                             surface_tags := Some td |}
                     else s) <$> RM (editor c);
         AS := AS (editor c) |} c).

Definition setSelectionMode (m : SelectionMode) : Handler unit :=
  modify (λ c, with_editor {| RM := RM (editor c); AS := m |} c).

(** [this.props.onAssetMetadataChanged(md)]: the host supplies the callback;
    the call is recorded. *)
Definition onAssetMetadataChanged (md : option IAssetMetadata)
  : Handler unit :=
  modify (λ c, with_host (host c ++ [md]) c).

(** [this.setState({ selectedRegions })] and [this.setState({ multiSelect })]:
    the update is applied at once. *)
Definition setSelectedRegions (a : loc) : Handler unit :=
  modify (λ c,
    with_state {| selectedRegions := Some a;
                  canvasEnabled := canvasEnabled (state c);
                  multiSelect := multiSelect (state c) |} c).

Definition setStateMultiSelect (b : bool) : Handler unit :=
  modify (λ c,
    with_state {| selectedRegions := selectedRegions (state c);
                  canvasEnabled := canvasEnabled (state c);
                  multiSelect := b |} c).

(** [currentAssetMetadata.asset.state = s]. *)
Definition setAssetState (s : AssetState) : Handler unit :=
  modify (λ c,
    let md := selectedAsset (props c) in
    with_props
      {| selectedAsset :=
           {| asset := {| asset_id := asset_id (asset md); asset_state := s |};
              regions := regions md |};
         editorMode := editorMode (props c);
         selectionMode := selectionMode (props c);
         selectedTags := selectedTags (props c) |} c).

Definition set_tags (ts : option (list string)) (r : IRegion) : IRegion :=
  {| region_id := region_id r; region_type := region_type r;
     region_tags := ts; region_points := region_points r;
     region_boundingBox := region_boundingBox r |}.

Definition set_points (ps : list Point2D) (r : IRegion) : IRegion :=
  {| region_id := region_id r; region_type := region_type r;
     region_tags := region_tags r; region_points := ps;
     region_boundingBox := region_boundingBox r |}.

(** ** canvasHelpers.ts: geometry and tag descriptors *)

(** The [switch] assigns [type] in four cases; in the [default] case
    [type] stays [undefined]. *)
Definition regionTypeToType (regionType : RegionType)
  : option RegionDataType :=
  match regionType with
  | Rectangle => Some Rect
  | Polygon => Some PolygonData
  | Point => Some PointData
  | Polyline => Some PolylineData
  | OtherRegionType => None
  end.

Definition getRegionData (region : IRegion) : RegionData :=
  {| rd_x := bb_left (region_boundingBox region);
     rd_y := bb_top (region_boundingBox region);
     rd_width := bb_width (region_boundingBox region);
     rd_height := bb_height (region_boundingBox region);
     rd_points :=
       (λ point, {| px := px point; py := py point |}) <$> region_points region;
     rd_type := regionTypeToType (region_type region) |}.

(** What a call site passes for a parameter of [getTagsDescriptor]: nothing
    (the parameter is [undefined]), a region object, or the project's tags. *)
Inductive Arg :=
  | ArgUndefined
  | ArgRegion (l : loc)
  | ArgProjectTags (ts : list ITag).

(** [Guard.null] lives in common/guard, outside these sources: all that is
    assumed of it is that, on a given value, it either throws ([true]) or
    returns. *)
Variable Guard_null : Arg → bool.

Definition guard (v : Arg) : Handler unit :=
  if Guard_null v then throw else ret tt.

(** [getTagsDescriptor(projectTags, region)].  After the two guards the
    body reads [region.tags] and maps over it, looking every tag name up
    with [projectTags.find]; names without a project tag are dropped. *)
Definition getTagsDescriptor (projectTags region : Arg)
  : Handler TagsDescriptor :=
  guard projectTags >>
  guard region >>
  match region with
  | ArgRegion l =>
      let! r := deref (Some l) in
      let! names := liftE (region_tags r) in
      match names, projectTags with
      | [], _ => ret []
      | _, ArgProjectTags pts =>
          ret (omap (λ tagName,
                 Array_find (λ projectTag,
                   bool_decide (tag_name projectTag = tagName)) pts) names)
      | _, _ => throw
      end
  | ArgUndefined | ArgProjectTags _ => throw
  end.

(** [CanvasHelpers.getRegion(scaledRegionData, editorMode, id)], called by
    [onSelectionEnd].  The class [CanvasHelpers] of canvasHelpers.ts has no
    member [getRegion]: the callee is [undefined] and the call throws a
    [TypeError]. *)
Definition getRegion (regionData : RegionData) (editorMode : RegionType)
    (id : string) : Handler IRegion :=
  throw.

(** [shortid.generate()]: the [n]-th id the generator hands out. *)
Variable generate : nat → string.

Definition shortid_generate : Handler string :=
  λ c, Return (generate (shortid c)) (with_shortid (S (shortid c)) c).

(** [CanvasHelpers.duplicateAndTransformRegions(regions, others)], called
    by [pasteRegions].  The class [CanvasHelpers] of canvasHelpers.ts has no
    such member either: the call throws a [TypeError], whatever the
    snapshot holds. *)
Definition duplicateAndTransformRegions (regions : list (option IRegion))
    (others : loc) : Handler (list loc) :=
  throw.

(** The surface's two scalings between display and source space. *)
Variable scaleRegionToSourceSize : RegionData → RegionData.
Variable scaleRegionToFrameSize : RegionData → RegionData.

(** ** common/clipboard *)

(** Modelled from the spec: the [ClipBoard] class is not among these
    sources.  [set] stores a snapshot of the regions (a copy by value, which
    later mutation of the live regions does not alter), [get] returns the
    last stored snapshot, or nothing when none was ever stored, and does not
    clear it. *)
Definition clipBoard_set (a : loc) : Handler unit :=
  let! arr := readArray a in
  let! c := get in
  modify (with_clipBoard
            (Some ((λ r : ref, r ≫= λ l, regionObjects c !! l) <$> items arr))).

Definition clipBoard_get : Handler (option (list (option IRegion))) :=
  let! c := get in ret (clipBoard c).

(** ** canvas.tsx: the [Canvas] component *)

Definition clearAllRegions : Handler unit := RM_deleteAllRegions.

(** One pass of the body of the loop of [applyTags] over [region].  An
    [undefined] region makes the first statement of either branch throw. *)
Definition applyTagsTo (region : ref) : Handler unit :=
  match region with
  | None => throw
  | Some l =>
      let! c := get in
      let clearTags :=
        let! r := deref region in
        writeObject l (set_tags (Some []) r) in
      match selectedTags (props c) with
      | Some tags =>
          if bool_decide (length (tags_items tags) ≠ O) then
            forEach (tags_items tags) (λ tag,
              let! r := deref region in
              (* toggleTag(region.tags, tag) toggles in place ... *)
              let! ts := liftE (region_tags r) in
              writeObject l (set_tags (Some (toggleTag ts tag)) r) >>
              (* ... and the assignment stores what it returns: nothing *)
              writeObject l (set_tags None r))
          else clearTags
      | None => clearTags
      end >>
      let! r := deref region in
      let! td := getTagsDescriptor (ArgRegion l) ArgUndefined in
      RM_updateTagsById (region_id r) td
  end.

Definition applyTags : Handler unit :=
  let! c := get in
  let! sel := liftE (selectedRegions (state c)) in
  forOf sel applyTagsTo >>
  let! c := get in
  onAssetMetadataChanged (Some (selectedAsset (props c))).

Definition onRegionSelected (id : string) : Handler unit :=
  let! c := get in
  let! arr := readArray (regions (selectedAsset (props c))) in
  let! selectedRegion :=
    liftE (Array_findE (hasId (regionObjects c) id) (items arr)) in
  let selectedRegion : ref := mjoin selectedRegion in
  if multiSelect (state c) then
    let! sel := liftE (selectedRegions (state c)) in
    let! sarr := readArray sel in
    let! found :=
      liftE (Array_findE (sameId (regionObjects c) selectedRegion)
               (items sarr)) in
    match found with
    | None =>
        writeArray sel {| items := Array_push (items sarr) selectedRegion;
                          minus1 := minus1 sarr |}
    | Some _ => ret tt
    end >>
    setSelectedRegions sel
  else
    let! sel := newArray [selectedRegion] in
    setSelectedRegions sel.

Definition addRegionToAsset (region : loc) : Handler IAssetMetadata :=
  let! c := get in
  let a := regions (selectedAsset (props c)) in
  let! arr := readArray a in
  writeArray a {| items := Array_push (items arr) (Some region);
                  minus1 := minus1 arr |} >>
  let! arr := readArray a in
  (if bool_decide (length (items arr) ≠ O) then setAssetState Tagged
   else ret tt) >>
  let! c := get in
  ret (selectedAsset (props c)).

Definition deleteRegionFromAsset (id : string) : Handler IAssetMetadata :=
  let! c := get in
  let a := regions (selectedAsset (props c)) in
  let! arr := readArray a in
  let! deletedRegionIndex :=
    liftE (Array_findIndexE (hasId (regionObjects c) id) 0 (items arr)) in
  writeArray a {| items := Array_splice1 deletedRegionIndex (items arr);
                  minus1 := minus1 arr |} >>
  let! arr := readArray a in
  (if bool_decide (length (items arr) = O) then setAssetState Visited
   else ret tt) >>
  let! c := get in
  ret (selectedAsset (props c)).

(** [onSelectionEnd] draws the new region on the surface and then calls
    [CanvasHelpers.getRegion], which throws: the handler ends there.  The
    statements after the call are kept as the source has them, with
    [applyTags], the callback handed to [setState], last; none of them is
    reached. *)
Definition onSelectionEnd (commit : RegionData) : Handler unit :=
  let! id := shortid_generate in
  RM_addRegion id commit None >>
  let scaledRegionData := scaleRegionToSourceSize commit in
  let! c := get in
  let! region := getRegion scaledRegionData (editorMode (props c)) id in
  let! newRegion := newObject region in
  let a := regions (selectedAsset (props c)) in
  let! arr := readArray a in
  writeArray a {| items := Array_push (items arr) (Some newRegion);
                  minus1 := minus1 arr |} >>
  let! sel := newArray [Some newRegion] in
  setSelectedRegions sel >>
  let! arr := readArray a in
  (if bool_decide (length (items arr) ≠ O) then setAssetState Tagged
   else ret tt) >>
  let! c := get in
  onAssetMetadataChanged (Some (selectedAsset (props c))) >>
  applyTags.

Definition onRegionMove (id : string) (regionData : RegionData)
  : Handler unit :=
  let! c := get in
  let a := regions (selectedAsset (props c)) in
  let! arr := readArray a in
  let! movedRegionIndex :=
    liftE (Array_findIndexE (hasId (regionObjects c) id) 0 (items arr)) in
  let movedRegion := Array_get arr movedRegionIndex in
  let scaledRegionData := scaleRegionToSourceSize regionData in
  match movedRegion with
  | Some l =>
      let! r := deref movedRegion in
      writeObject l (set_points (rd_points scaledRegionData) r)
  | None => ret tt
  end >>
  writeArray a (Array_set arr movedRegionIndex movedRegion) >>
  let! sel := newArray [movedRegion] in
  setSelectedRegions sel >>
  let! c := get in
  onAssetMetadataChanged (Some (selectedAsset (props c))).

Definition onRegionDelete (id : string) : Handler unit :=
  RM_deleteRegionById id >>
  let! currentAssetMetadata := deleteRegionFromAsset id in
  onAssetMetadataChanged (Some currentAssetMetadata) >>
  let! sel := newArray [] in
  setSelectedRegions sel.

Definition setMultiSelect (multiSelect' : bool) : Handler unit :=
  let! c := get in
  if bool_decide (multiSelect' ≠ multiSelect (state c))
  then setStateMultiSelect multiSelect'
  else ret tt.

Definition copyRegions : Handler unit :=
  let! c := get in
  match selectedRegions (state c) with
  | Some sel => clipBoard_set sel
  | None => ret tt
  end.

Definition cutRegions : Handler unit :=
  copyRegions >>
  let! c := get in
  let! sel := liftE (selectedRegions (state c)) in
  forOf sel (λ region,
    let! r := deref region in
    onRegionDelete (region_id r)).

(** [addRegions]: [currentAssetMetadata] is declared without a value and
    assigned in the loop. *)
Fixpoint addRegionsFrom (regions : list loc)
    (currentAssetMetadata : option IAssetMetadata)
  : Handler (option IAssetMetadata) :=
  match regions with
  | [] => ret currentAssetMetadata
  | region :: rest =>
      let! r := deref (Some region) in
      let regionData := getRegionData r in
      let scaledRegionData := scaleRegionToFrameSize regionData in
      let! td := getTagsDescriptor (ArgRegion region) ArgUndefined in
      RM_addRegion (region_id r) scaledRegionData (Some td) >>
      let! md := addRegionToAsset region in
      addRegionsFrom rest (Some md)
  end.

Definition addRegions (regions : list loc) : Handler unit :=
  let! currentAssetMetadata := addRegionsFrom regions None in
  onAssetMetadataChanged currentAssetMetadata.

(** [pasteRegions]: with a snapshot in the clipboard, the call of
    [CanvasHelpers.duplicateAndTransformRegions] throws before [addRegions]
    is reached. *)
Definition pasteRegions : Handler unit :=
  let! c := get in
  let existing := regions (selectedAsset (props c)) in
  let! regions := clipBoard_get in
  match regions with
  | Some regions =>
      let! newRegions := duplicateAndTransformRegions regions existing in
      addRegions newRegions
  | None => ret tt
  end.

Fixpoint mapIds (objs : list IRegion) (l : list ref) : option (list string) :=
  match l with
  | [] => Some []
  | r :: l' =>
      l0 ← r; o ← objs !! l0; ids ← mapIds objs l'; Some (region_id o :: ids)
  end.

Definition clearRegions : Handler unit :=
  let! c := get in
  let! arr := readArray (regions (selectedAsset (props c))) in
  let! ids := liftE (mapIds (regionObjects c) (items arr)) in
  forEach ids onRegionDelete.

Definition selectAllRegions : Handler unit :=
  let! c := get in
  setSelectedRegions (regions (selectedAsset (props c))) >>
  applyTags.

Definition tagsChanged (a b : option TagArray) : bool :=
  match a, b with
  | None, None => false
  | Some x, Some y => bool_decide (tags_ref x ≠ tags_ref y)
  | _, _ => true
  end.

Definition componentDidUpdate (prevProps : ICanvasProps) : Handler unit :=
  let! c := get in
  (if bool_decide (asset_id (asset (selectedAsset (props c)))
                   ≠ asset_id (asset (selectedAsset prevProps)))
   then
     clearAllRegions >>
     let! arr := readArray (regions (selectedAsset (props c))) in
     if bool_decide (length (items arr) ≠ O)
     then let! sel := newArray [] in setSelectedRegions sel
     else ret tt
   else ret tt) >>
  (if bool_decide (selectionMode (props c) ≠ selectionMode prevProps)
   then setSelectionMode (selectionMode (props c))
   else ret tt) >>
  (if tagsChanged (selectedTags (props c)) (selectedTags prevProps)
   then applyTags
   else ret tt).

(** The host hands new props to the component: React replaces the props and
    calls [componentDidUpdate] with the previous ones. *)
Definition setProps (newProps : ICanvasProps) : Handler unit :=
  let! c := get in
  modify (with_props newProps) >>
  componentDidUpdate (props c).

(** [updateRegions] draws the asset's regions on the surface and selects
    the last one; it does nothing for an asset without regions.
    [Array.prototype.forEach] goes over the indices below the length the
    array has when the loop starts; the callback writes to no array, so the
    elements it is given are those the array holds at that moment. *)
Definition updateRegions : Handler unit :=
  let! c := get in
  let a := regions (selectedAsset (props c)) in
  let! arr := readArray a in
  if bool_decide (length (items arr) = O) then ret tt
  else
    forEach (items arr) (λ region,
      match region with
      | None => throw
      | Some l =>
          let! r := deref region in
          let loadedRegionData := getRegionData r in
          let! td := getTagsDescriptor (ArgRegion l) ArgUndefined in
          RM_addRegion (region_id r)
            (scaleRegionToFrameSize loadedRegionData) (Some td)
      end) >>
    let! arr := readArray a in
    let! sel :=
      newArray [Array_get arr (Z.of_nat (length (items arr)) - 1)] in
    setSelectedRegions sel.

(** ** Vocabulary of the properties *)

(** [keeps R m]: whether [m] returns or throws, the component it leaves is
    related by [R] to the one it started from. *)
Definition keeps (R : relation Canvas) {A} (m : Handler A) : Prop :=
  ∀ c, R c (after (m c)).

(** [same_view]: only the region objects and the record of host calls may
    differ. *)
Definition same_view (c c' : Canvas) : Prop :=
  arrays c' = arrays c ∧ props c' = props c ∧ state c' = state c
  ∧ editor c' = editor c ∧ clipBoard c' = clipBoard c.

(** What the last two steps of [componentDidUpdate] (forwarding the
    selection mode, re-applying the tags) leave alone. *)
Definition same_selection (c c' : Canvas) : Prop :=
  arrays c' = arrays c ∧ state c' = state c
  ∧ RM (editor c') = RM (editor c).

(** The region object behind a reference, if any. *)
Definition region_at (objs : list IRegion) (r : ref) : option IRegion :=
  r ≫= (objs !!.).

(** The ids of the regions an array refers to. *)
Definition ids_of (objs : list IRegion) (l : list ref) : list string :=
  omap (λ r, region_id <$> region_at objs r) l.

(** Every element is a region object. *)
Definition all_regions (objs : list IRegion) (l : list ref) : Prop :=
  Forall (λ r, is_Some (region_at objs r)) l.

(** An array of regions: every element is a region object, and nothing is
    stored under the property [-1]. *)
Definition region_array (objs : list IRegion) (arr : RegionArray) : Prop :=
  all_regions objs (items arr) ∧ default None (minus1 arr) = None.

(** The asset's array of regions exists, and it is non-empty exactly when
    the asset is [Tagged]. *)
Definition asset_state_ok (c : Canvas) : Prop :=
  ∃ arr, arrays c !! regions (selectedAsset (props c)) = Some arr
         ∧ (items arr ≠ [] ↔
            asset_state (asset (selectedAsset (props c))) = Tagged).

Definition keeps_asset_state (c c' : Canvas) : Prop :=
  asset_state_ok c → asset_state_ok c'.

(** The props are the same and every array that existed is the same. *)
Definition same_asset (c c' : Canvas) : Prop :=
  props c' = props c
  ∧ ∀ a arr, arrays c !! a = Some arr → arrays c' !! a = Some arr.

(** The events that reach the selection: a click on a region of the
    surface, and the Shift key going down or up. *)
Inductive SelectEvent :=
  | RegionSelected (id : string)
  | ShiftKey (down : bool).

Definition fire (e : SelectEvent) : Handler unit :=
  match e with
  | RegionSelected id => onRegionSelected id
  | ShiftKey down => setMultiSelect down
  end.

(** A rectangle with the given id and tags, every coordinate being [n]. *)
Definition sample_region (n : number) (id : string) (tags : list string)
  : IRegion :=
  {| region_id := id;
     region_type := Rectangle;
     region_tags := Some tags;
     region_points := [{| px := n; py := n |}];
     region_boundingBox :=
       {| bb_left := n; bb_top := n; bb_width := n; bb_height := n |} |}.

(** A component over the region objects [objs]: array [0] holds the
    asset's regions [regs], array [1] the selection [sel]; nothing is drawn
    and the host has not been called. *)
Definition sample_canvas (objs : list IRegion) (regs sel : list ref)
    (st : AssetState) (tags : option TagArray)
    (clip : option (list (option IRegion))) (multi : bool) : Canvas :=
  {| regionObjects := objs;
     arrays := [{| items := regs; minus1 := None |};
                {| items := sel; minus1 := None |}];
     props := {| selectedAsset :=
                   {| asset := {| asset_id := "asset-1"; asset_state := st |};
                      regions := O |};
                 editorMode := Rectangle;
                 selectionMode := O;
                 selectedTags := tags |};
     state := {| selectedRegions := Some 1%nat;
                 canvasEnabled := true;
                 multiSelect := multi |};
     clipBoard := clip;
     editor := {| RM := []; AS := O |};
     host := [];
     shortid := O |}.

(** The elements at the odd positions (the second, the fourth, ...). *)
Fixpoint odds {A} (l : list A) : list A :=
  match l with
  | _ :: y :: l' => y :: odds l'
  | _ => []
  end.

(** * Properties *)

(** ** Array primitives *)

Lemma Array_findIndexFrom_none {A} (p : A → bool) (i : Z) (l : list A) :
  Forall (λ x, p x = false) l → Array_findIndexFrom p i l = -1.
Proof.
  intros H. revert i. induction H as [|x l Hx _ IH]; intros i; simpl.
  - reflexivity.
  - rewrite Hx. apply IH.
Qed.

Lemma Array_findIndexFrom_first {A} (p : A → bool) (i : Z) (l1 l2 : list A)
    (x : A) :
  Forall (λ y, p y = false) l1 → p x = true →
  Array_findIndexFrom p i (l1 ++ x :: l2) = i + Z.of_nat (length l1).
Proof.
  intros H Hx. revert i. induction H as [|y l Hy _ IH]; intros i; simpl.
  - rewrite Hx. lia.
  - rewrite Hy, IH. lia.
Qed.

(** A list either has no accepted element or splits at the first one. *)
Lemma first_split {A} (p : A → bool) (l : list A) :
  Forall (λ x, p x = false) l ∨
  ∃ l1 x l2, l = l1 ++ x :: l2 ∧ Forall (λ y, p y = false) l1 ∧ p x = true.
Proof.
  induction l as [|y l IH].
  - left. constructor.
  - destruct (p y) eqn:Hy.
    + right. exists [], y, l. repeat split; [constructor | exact Hy].
    + destruct IH as [IH | (l1 & x & l2 & -> & H1 & Hx)].
      * left. constructor; assumption.
      * right. exists (y :: l1), x, l2.
        repeat split; [constructor; assumption | exact Hx].
Qed.

Lemma Array_splice1_at {A} (l1 l2 : list A) (x : A) :
  Array_splice1 (Z.of_nat (length l1)) (l1 ++ x :: l2) = l1 ++ l2.
Proof.
  unfold Array_splice1.
  destruct (Z.ltb_spec (Z.of_nat (length l1)) 0) as [?|_]; [lia|].
  rewrite Z.min_l by (rewrite length_app; simpl; lia).
  rewrite Nat2Z.id. apply delete_middle.
Qed.

(** [splice(-1, 1)] removes the last element. *)
Lemma Array_splice1_minus1 {A} (l : list A) (x : A) :
  Array_splice1 (-1) (l ++ [x]) = l.
Proof.
  unfold Array_splice1. simpl.
  rewrite length_app. simpl.
  rewrite Z.max_l by lia.
  replace (Z.to_nat (Z.of_nat (length l + 1) + -1)) with (length l) by lia.
  rewrite delete_middle. apply app_nil_r.
Qed.

Lemma Array_splice1_minus1_nil {A} : Array_splice1 (-1) (@nil A) = [].
Proof. reflexivity. Qed.

(** ** Tag helpers *)

Lemma tag_absent (tags : list string) (tag : string) :
  tag ∉ tags ↔ Forall (λ t, bool_decide (t = tag) = false) tags.
Proof.
  rewrite Forall_forall. split.
  - intros H t Ht. apply bool_decide_eq_false. intros ->. exact (H Ht).
  - intros H Ht. specialize (H _ Ht).
    apply bool_decide_eq_false in H. exact (H eq_refl).
Qed.

Lemma toggleTag_absent (tags : list string) (tag : string) :
  tag ∉ tags → toggleTag tags tag = tags ++ [tag].
Proof.
  intros H. unfold toggleTag, Array_findIndex.
  rewrite Array_findIndexFrom_none by (apply tag_absent; exact H).
  reflexivity.
Qed.

Lemma toggleTag_present (l1 l2 : list string) (tag : string) :
  tag ∉ l1 → toggleTag (l1 ++ tag :: l2) tag = l1 ++ l2.
Proof.
  intros H. unfold toggleTag, Array_findIndex.
  rewrite Array_findIndexFrom_first
    by (first [apply tag_absent; exact H | apply bool_decide_eq_true; reflexivity]).
  destruct (Z.eqb_spec (0 + Z.of_nat (length l1)) (-1)) as [?|_]; [lia|].
  simpl. apply Array_splice1_at.
Qed.

Lemma tag_split (tags : list string) (tag : string) :
  tag ∈ tags → ∃ l1 l2, tags = l1 ++ tag :: l2 ∧ tag ∉ l1.
Proof.
  intros Hin.
  destruct (first_split (λ t, bool_decide (t = tag)) tags)
    as [H | (l1 & x & l2 & -> & H1 & Hx)].
  - apply tag_absent in H. contradiction.
  - apply bool_decide_eq_true in Hx. subst x.
    exists l1, l2. split; [reflexivity | apply tag_absent; exact H1].
Qed.

Lemma find_present (tags : list string) (tag : string) :
  tag ∈ tags → find tags tag = Some tag.
Proof.
  intros (l1 & l2 & -> & H)%tag_split. unfold find.
  apply tag_absent in H. induction H as [|t l Ht _ IH]; simpl.
  - rewrite bool_decide_eq_true_2; reflexivity.
  - rewrite Ht. exact IH.
Qed.

Lemma find_absent (tags : list string) (tag : string) :
  tag ∉ tags → find tags tag = None.
Proof.
  intros H. unfold find. apply tag_absent in H.
  induction H as [|t l Ht _ IH]; simpl; [reflexivity|].
  rewrite Ht. exact IH.
Qed.

(** C6: on a duplicate-free tag list, toggling the same tag twice gives back
    the same tags (a permutation of the list, hence the same membership);
    one toggle appends the tag when it is absent and removes its only
    occurrence, keeping the others in order, when it is present. *)
Theorem toggleTag_twice (tags : list string) (tag : string) :
  NoDup tags →
  toggleTag (toggleTag tags tag) tag ≡ₚ tags
  ∧ (∀ t, t ∈ toggleTag (toggleTag tags tag) tag ↔ t ∈ tags)
  ∧ (tag ∉ tags → toggleTag tags tag = tags ++ [tag])
  ∧ (tag ∈ tags →
     ∃ l1 l2, tags = l1 ++ tag :: l2
              ∧ toggleTag tags tag = l1 ++ l2
              ∧ tag ∉ toggleTag tags tag).
Proof.
  intros Hnd.
  assert (Hperm : toggleTag (toggleTag tags tag) tag ≡ₚ tags).
  { destruct (decide (tag ∈ tags)) as [Hin | Hout].
    - destruct (tag_split _ _ Hin) as (l1 & l2 & -> & H1).
      apply NoDup_app in Hnd as (_ & Hdisj & Hnd2).
      apply NoDup_cons in Hnd2 as [H2 _].
      rewrite (toggleTag_present l1 l2 tag H1).
      rewrite toggleTag_absent
        by (rewrite elem_of_app; intros [?|?]; contradiction).
      rewrite <- (assoc_L (++)).
      apply Permutation_app_head. symmetry. apply Permutation_cons_append.
    - rewrite (toggleTag_absent tags tag Hout).
      replace (tags ++ [tag]) with (tags ++ tag :: []) by reflexivity.
      rewrite toggleTag_present by exact Hout.
      rewrite app_nil_r. reflexivity. }
  split; [exact Hperm|]. split; [|split].
  - intros t. rewrite Hperm. reflexivity.
  - apply toggleTag_absent.
  - intros Hin. destruct (tag_split _ _ Hin) as (l1 & l2 & -> & H1).
    apply NoDup_app in Hnd as (_ & _ & Hnd2).
    apply NoDup_cons in Hnd2 as [H2 _].
    exists l1, l2. rewrite toggleTag_present by exact H1.
    repeat split. rewrite elem_of_app. intros [?|?]; contradiction.
Qed.

(** C10: [addIfMissing] leaves the list unchanged when given a non-empty
    tag name that is already present, and keeps a duplicate-free list
    duplicate-free for every non-empty tag name; the empty tag name is not
    covered: presence is tested by the truthiness of the element found, and
    the empty string, already present, is appended again. *)
Theorem addIfMissing_nonempty_present :
  (∀ tags tag, tag ≠ EmptyString → tag ∈ tags → addIfMissing tags tag = tags)
  ∧ (∀ tags tag, tag ≠ EmptyString → NoDup tags →
       NoDup (addIfMissing tags tag))
  ∧ addIfMissing [EmptyString] EmptyString = [EmptyString; EmptyString].
Proof.
  assert (Hkeep : ∀ tags tag, tag ≠ EmptyString → tag ∈ tags →
                    addIfMissing tags tag = tags).
  { intros tags tag Hne Hin. unfold addIfMissing.
    rewrite find_present by exact Hin. simpl.
    rewrite bool_decide_eq_false_2 by exact Hne. reflexivity. }
  split; [exact Hkeep|]. split; [|reflexivity].
  intros tags tag Hne Hnd.
  destruct (decide (tag ∈ tags)) as [Hin | Hout].
  - rewrite Hkeep; assumption.
  - unfold addIfMissing. rewrite find_absent by exact Hout. simpl.
    unfold Array_push. apply NoDup_app. split; [exact Hnd|]. split.
    + intros t Ht ->%list_elem_of_singleton. contradiction.
    + apply NoDup_singleton.
Qed.

(** ** Reasoning about handlers *)

Lemma after_bind {A B} (m : Handler A) (k : A → Handler B) (c : Canvas) :
  after (bind m k c)
  = match m c with Return a c' => after (k a c') | Throw c' => c' end.
Proof. unfold bind. destruct (m c); reflexivity. Qed.

Lemma returned_bind {A B} (m : Handler A) (k : A → Handler B) (c : Canvas) :
  returned (bind m k c)
  = match m c with Return a c' => returned (k a c') | Throw _ => false end.
Proof. unfold bind. destruct (m c); reflexivity. Qed.

Section Keeps.
Variable R : relation Canvas.
Context `{!Reflexive R, !Transitive R}.

Lemma keeps_ret {A} (a : A) : keeps R (ret a).
Proof. intros c. simpl. reflexivity. Qed.

Lemma keeps_throw {A} : keeps R (@throw A).
Proof. intros c. simpl. reflexivity. Qed.

Lemma keeps_get : keeps R get.
Proof. intros c. simpl. reflexivity. Qed.

Lemma keeps_liftE {A} (o : option A) : keeps R (liftE o).
Proof. destruct o; [apply keeps_ret | apply keeps_throw]. Qed.

Lemma keeps_readArray (a : loc) : keeps R (readArray a).
Proof. intros c. unfold readArray. destruct (arrays c !! a); reflexivity. Qed.

Lemma keeps_deref (r : ref) : keeps R (deref r).
Proof.
  intros c. unfold deref. destruct r as [l|]; [|reflexivity].
  destruct (regionObjects c !! l); reflexivity.
Qed.

Lemma keeps_bind {A B} (m : Handler A) (k : A → Handler B) :
  keeps R m → (∀ a, keeps R (k a)) → keeps R (bind m k).
Proof.
  intros Hm Hk c. rewrite after_bind. specialize (Hm c).
  destruct (m c) as [a c'|c']; simpl in Hm; [|exact Hm].
  transitivity c'; [exact Hm | apply Hk].
Qed.

(** When [m] never returns, what follows it does not matter. *)
Lemma keeps_bind_thrown {A B} (m : Handler A) (k : A → Handler B) :
  keeps R m → (∀ c, returned (m c) = false) → keeps R (bind m k).
Proof.
  intros Hm Hthrow c. rewrite after_bind.
  specialize (Hm c). specialize (Hthrow c).
  destruct (m c) as [a c'|c']; simpl in *; [discriminate | exact Hm].
Qed.

Lemma keeps_forEach {A} (l : list A) (body : A → Handler unit) :
  (∀ x, keeps R (body x)) → keeps R (forEach l body).
Proof.
  intros Hbody. induction l as [|x l IH]; simpl.
  - apply keeps_ret.
  - apply keeps_bind; [apply Hbody | intros _; exact IH].
Qed.

Lemma keeps_forOfFrom (steps : nat) (a : loc) (i : nat)
    (body : ref → Handler unit) :
  (∀ x, keeps R (body x)) → keeps R (forOfFrom steps a i body).
Proof.
  intros Hbody. revert i. induction steps as [|steps IH]; intros i; simpl.
  - apply keeps_ret.
  - apply keeps_bind; [apply keeps_readArray|]. intros arr.
    destruct (items arr !! i); [|apply keeps_ret].
    apply keeps_bind; [apply Hbody | intros _; apply IH].
Qed.

Lemma keeps_forOf (a : loc) (body : ref → Handler unit) :
  (∀ x, keeps R (body x)) → keeps R (forOf a body).
Proof.
  intros Hbody. apply keeps_bind; [apply keeps_readArray|].
  intros arr. apply keeps_forOfFrom. exact Hbody.
Qed.
End Keeps.

Lemma keeps_weaken (R R' : relation Canvas) {A} (m : Handler A) :
  (∀ c c', R c c' → R' c c') → keeps R m → keeps R' m.
Proof. intros HR Hm c. apply HR, Hm. Qed.

#[local] Instance same_view_refl : Reflexive same_view.
Proof. intros c. repeat split. Qed.

#[local] Instance same_view_trans : Transitive same_view.
Proof.
  intros c1 c2 c3 (?&?&?&?&?) (?&?&?&?&?).
  repeat split; etransitivity; eassumption.
Qed.

Lemma keeps_writeObject (l : loc) (o : IRegion) :
  keeps same_view (writeObject l o).
Proof. intros c. repeat split. Qed.

Lemma keeps_onAssetMetadataChanged (md : option IAssetMetadata) :
  keeps same_view (onAssetMetadataChanged md).
Proof. intros c. repeat split. Qed.

(** Called with the region alone, [getTagsDescriptor] receives it as
    [projectTags] and [undefined] as [region]: whatever [Guard.null] does,
    the call throws, at the guard or at [region.tags]. *)
Lemma getTagsDescriptor_undefined_region (projectTags : Arg) (c : Canvas) :
  getTagsDescriptor projectTags ArgUndefined c = Throw c.
Proof.
  unfold getTagsDescriptor, guard, bind.
  destruct (Guard_null projectTags); simpl; [reflexivity|].
  destruct (Guard_null ArgUndefined); reflexivity.
Qed.

Lemma keeps_applyTagsTo (region : ref) : keeps same_view (applyTagsTo region).
Proof.
  unfold applyTagsTo. destruct region as [l|]; [|apply keeps_throw; apply _].
  apply keeps_bind; [apply _ | apply keeps_get; apply _ |]. intros c.
  assert (Hclear : keeps same_view
            (let! r := deref (Some l) in writeObject l (set_tags (Some []) r))).
  { apply keeps_bind; [apply _ | apply keeps_deref; apply _ |].
    intros r. apply keeps_writeObject. }
  apply keeps_bind; [apply _ | |].
  - destruct (selectedTags (props c)) as [tags|]; [|exact Hclear].
    destruct (bool_decide _); [|exact Hclear].
    apply keeps_forEach; [apply _ ..|]. intros tag.
    apply keeps_bind; [apply _ | apply keeps_deref; apply _ |]. intros r.
    apply keeps_bind; [apply _ | apply keeps_liftE; apply _ |]. intros ts.
    apply keeps_bind; [apply _ | apply keeps_writeObject |]. intros _.
    apply keeps_writeObject.
  - intros _. apply keeps_bind; [apply _ | apply keeps_deref; apply _ |].
    intros r. apply keeps_bind_thrown.
    + intros c'. rewrite getTagsDescriptor_undefined_region.
      simpl. reflexivity.
    + intros c'. rewrite getTagsDescriptor_undefined_region. reflexivity.
Qed.

Lemma keeps_applyTags : keeps same_view applyTags.
Proof.
  unfold applyTags.
  apply keeps_bind; [apply _ | apply keeps_get; apply _ |]. intros c.
  apply keeps_bind; [apply _ | apply keeps_liftE; apply _ |]. intros sel.
  apply keeps_bind; [apply _ | |].
  - apply keeps_forOf; [apply _ ..|]. apply keeps_applyTagsTo.
  - intros _. apply keeps_bind; [apply _ | apply keeps_get; apply _ |].
    intros c'. apply keeps_onAssetMetadataChanged.
Qed.

(** ** Active-asset change *)

#[local] Instance same_selection_refl : Reflexive same_selection.
Proof. intros c. repeat split. Qed.

#[local] Instance same_selection_trans : Transitive same_selection.
Proof.
  intros c1 c2 c3 (?&?&?) (?&?&?). repeat split; etransitivity; eassumption.
Qed.

Lemma same_view_selection (c c' : Canvas) :
  same_view c c' → same_selection c c'.
Proof.
  intros (Ha & _ & Hs & He & _). unfold same_selection.
  rewrite Ha, Hs, He. repeat split.
Qed.

(** C8: when the incoming asset's id differs from the previous one,
    [componentDidUpdate] leaves no region on the surface; if the new asset
    has regions, [selectedRegions] becomes a new, empty array; if it has
    none, [selectedRegions] is the array it was, with its contents. *)
Theorem active_asset_change (prevProps : ICanvasProps) (c : Canvas)
    (arr : RegionArray) :
  asset_id (asset (selectedAsset (props c)))
    ≠ asset_id (asset (selectedAsset prevProps)) →
  arrays c !! regions (selectedAsset (props c)) = Some arr →
  let c' := after (componentDidUpdate prevProps c) in
  RM (editor c') = []
  ∧ (items arr ≠ [] →
     ∃ sel empty, selectedRegions (state c') = Some sel
                  ∧ arrays c !! sel = None
                  ∧ arrays c' !! sel = Some empty ∧ items empty = [])
  ∧ (items arr = [] →
     selectedRegions (state c') = selectedRegions (state c)
     ∧ arrays c' = arrays c).
Proof.
  intros Hid Harr c'.
  assert (Htail : ∀ c1,
    same_selection c1
      (after (((if bool_decide (selectionMode (props c)
                                ≠ selectionMode prevProps)
                then setSelectionMode (selectionMode (props c))
                else ret tt) >>
               (if tagsChanged (selectedTags (props c)) (selectedTags prevProps)
                then applyTags else ret tt)) c1))).
  { apply keeps_bind; [apply _ | |].
    - destruct (bool_decide _); [|apply keeps_ret; apply _].
      intros c1. repeat split.
    - intros _. destruct (tagsChanged _ _); [|apply keeps_ret; apply _].
      eapply keeps_weaken; [apply same_view_selection | apply keeps_applyTags]. }
  pose (cleared := with_editor {| RM := []; AS := AS (editor c) |} c).
  assert (Hfirst :
    (clearAllRegions >>
     let! arr := readArray (regions (selectedAsset (props c))) in
     if bool_decide (length (items arr) ≠ O)
     then let! sel := newArray [] in setSelectedRegions sel
     else ret tt) c
    = Return tt
        (if bool_decide (length (items arr) ≠ O)
         then with_state {| selectedRegions := Some (length (arrays c));
                            canvasEnabled := canvasEnabled (state c);
                            multiSelect := multiSelect (state c) |}
                (with_arrays
                   (arrays c ++ [{| items := []; minus1 := None |}]) cleared)
         else cleared)).
  { unfold bind, clearAllRegions, RM_deleteAllRegions, modify, readArray.
    simpl. rewrite Harr.
    destruct (bool_decide (length (items arr) ≠ O)); reflexivity. }
  assert (Hc' : ∃ c1, same_selection c1 c' ∧
    c1 = if bool_decide (length (items arr) ≠ O)
         then with_state {| selectedRegions := Some (length (arrays c));
                            canvasEnabled := canvasEnabled (state c);
                            multiSelect := multiSelect (state c) |}
                (with_arrays
                   (arrays c ++ [{| items := []; minus1 := None |}]) cleared)
         else cleared).
  { eexists. split; [|reflexivity].
    subst c'. unfold componentDidUpdate.
    rewrite after_bind. simpl. rewrite after_bind.
    rewrite (bool_decide_eq_true_2 _ Hid).
    rewrite Hfirst. apply Htail. }
  clearbody c'. destruct Hc' as (c1 & (Ha & Hs & He) & ->).
  rewrite Ha, Hs, He.
  destruct (items arr) as [|r rs] eqn:Hitems; simpl.
  - split; [reflexivity|]. split; [congruence|]. intros _. split; reflexivity.
  - split; [reflexivity|]. split; [|congruence].
    intros _. exists (length (arrays c)), {| items := []; minus1 := None |}.
    repeat split.
    + apply lookup_ge_None_2. lia.
    + rewrite lookup_app_r by lia. rewrite Nat.sub_diag. reflexivity.
Qed.

(** ** Lookups by id *)

Lemma hasId_region_at (objs : list IRegion) (id : string) (r : ref) :
  hasId objs id r = (λ o, bool_decide (region_id o = id)) <$> region_at objs r.
Proof.
  unfold hasId, region_at. destruct r as [l|]; simpl; [|reflexivity].
  destruct (objs !! l); reflexivity.
Qed.

Lemma Array_findIndexE_absent (objs : list IRegion) (id : string) (i : Z)
    (l : list ref) :
  all_regions objs l → id ∉ ids_of objs l →
  Array_findIndexE (hasId objs id) i l = Some (-1).
Proof.
  intros Hall. revert i. induction Hall as [|r l [o Ho] _ IH]; intros i Hid.
  - reflexivity.
  - simpl. rewrite hasId_region_at, Ho. simpl.
    unfold ids_of in Hid. simpl in Hid. rewrite Ho in Hid. simpl in Hid.
    apply not_elem_of_cons in Hid as [Hne Hid].
    rewrite bool_decide_eq_false_2 by congruence.
    apply IH. exact Hid.
Qed.

(** ** Region-move *)

(** C5: when no region of the active asset has the moved id, [onRegionMove]
    returns normally and the asset's regions are the same sequence of the
    same, unmodified region objects (the write goes to the property [-1] of
    the array, not to an element); the asset is otherwise untouched. *)
Theorem onRegionMove_absent (id : string) (regionData : RegionData)
    (c : Canvas) (arr : RegionArray) :
  arrays c !! regions (selectedAsset (props c)) = Some arr →
  region_array (regionObjects c) arr →
  id ∉ ids_of (regionObjects c) (items arr) →
  ∃ c' arr',
    onRegionMove id regionData c = Return tt c'
    ∧ arrays c' !! regions (selectedAsset (props c')) = Some arr'
    ∧ items arr' = items arr
    ∧ regionObjects c' = regionObjects c
    ∧ props c' = props c.
Proof.
  intros Harr [Hall Hminus] Hid.
  unfold onRegionMove, bind, get, readArray. simpl. rewrite Harr. simpl.
  rewrite (Array_findIndexE_absent _ _ _ _ Hall Hid). simpl.
  unfold Array_get. simpl. rewrite Hminus. simpl.
  eexists _, _. split; [reflexivity|]. simpl.
  assert (Hlt : (regions (selectedAsset (props c)) < length (arrays c))%nat)
    by (eapply lookup_lt_Some; exact Harr).
  split.
  - rewrite lookup_app_l by (rewrite length_insert; exact Hlt).
    apply list_lookup_insert_eq. exact Hlt.
  - repeat split.
Qed.

(** ** Asset state *)

#[local] Instance keeps_asset_state_refl : Reflexive keeps_asset_state.
Proof. intros c H. exact H. Qed.

#[local] Instance keeps_asset_state_trans : Transitive keeps_asset_state.
Proof. intros c1 c2 c3 H12 H23 H. exact (H23 (H12 H)). Qed.

#[local] Instance same_asset_refl : Reflexive same_asset.
Proof. intros c. split; [reflexivity | auto]. Qed.

#[local] Instance same_asset_trans : Transitive same_asset.
Proof.
  intros c1 c2 c3 [Hp1 Ha1] [Hp2 Ha2]. split; [congruence | auto].
Qed.

Lemma same_asset_keeps (c c' : Canvas) :
  same_asset c c' → keeps_asset_state c c'.
Proof.
  intros [Hp Ha] (arr & Harr & Hiff). exists arr. rewrite Hp.
  split; [apply Ha; exact Harr | exact Hiff].
Qed.

Lemma same_view_asset (c c' : Canvas) : same_view c c' → same_asset c c'.
Proof.
  intros (Ha & Hp & _). split; [exact Hp|]. rewrite Ha. auto.
Qed.

(** A handler that touches neither the props nor the arrays. *)
Lemma keeps_same_asset_frame {A} (m : Handler A) :
  (∀ c, props (after (m c)) = props c ∧ arrays (after (m c)) = arrays c) →
  keeps same_asset m.
Proof.
  intros H c. destruct (H c) as [Hp Ha]. split; [exact Hp|].
  rewrite Ha. auto.
Qed.

Lemma keeps_same_asset_newArray (l : list ref) : keeps same_asset (newArray l).
Proof.
  intros c. split; [reflexivity|]. simpl. intros a arr H.
  apply lookup_app_l_Some. exact H.
Qed.

Lemma keeps_same_asset_setSelectedRegions (a : loc) :
  keeps same_asset (setSelectedRegions a).
Proof. apply keeps_same_asset_frame. intros c. split; reflexivity. Qed.

Lemma keeps_same_asset_onAssetMetadataChanged (md : option IAssetMetadata) :
  keeps same_asset (onAssetMetadataChanged md).
Proof. apply keeps_same_asset_frame. intros c. split; reflexivity. Qed.

Lemma keeps_same_asset_RM_addRegion (id : string) (data : RegionData)
    (td : option TagsDescriptor) :
  keeps same_asset (RM_addRegion id data td).
Proof. apply keeps_same_asset_frame. intros c. split; reflexivity. Qed.

Lemma keeps_same_asset_RM_deleteRegionById (id : string) :
  keeps same_asset (RM_deleteRegionById id).
Proof. apply keeps_same_asset_frame. intros c. split; reflexivity. Qed.

Lemma keeps_same_asset_getTagsDescriptor (projectTags : Arg) :
  keeps same_asset (getTagsDescriptor projectTags ArgUndefined).
Proof.
  intros c. rewrite getTagsDescriptor_undefined_region. reflexivity.
Qed.

Lemma keeps_same_asset_copyRegions : keeps same_asset copyRegions.
Proof.
  apply keeps_same_asset_frame. intros c.
  unfold copyRegions, clipBoard_set, bind, get, readArray. simpl.
  destruct (selectedRegions (state c)) as [sel|]; [|split; reflexivity].
  destruct (arrays c !! sel); split; reflexivity.
Qed.

Lemma keeps_same_asset_duplicate (regions : list (option IRegion))
    (others : loc) :
  keeps same_asset (duplicateAndTransformRegions regions others).
Proof. apply keeps_throw. apply _. Qed.

Lemma Array_splice1_nil {A} (i : Z) : Array_splice1 i (@nil A) = [].
Proof. unfold Array_splice1. destruct (i <? 0); reflexivity. Qed.

Lemma deleteRegionFromAsset_asset_state (id : string) :
  keeps keeps_asset_state (deleteRegionFromAsset id).
Proof.
  intros c (arr & Harr & Hiff).
  assert (Hlt : (regions (selectedAsset (props c)) < length (arrays c))%nat)
    by (eapply lookup_lt_Some; exact Harr).
  unfold deleteRegionFromAsset, bind, get, readArray. simpl. rewrite Harr.
  simpl.
  destruct (Array_findIndexE _ _ _) as [idx|]; simpl;
    [|exists arr; split; assumption].
  rewrite list_lookup_insert_eq by exact Hlt. simpl.
  destruct (Array_splice1 idx (items arr)) as [|r rs] eqn:Hsplice; simpl.
  - eexists. split; [apply list_lookup_insert_eq; exact Hlt|]. simpl.
    split; [contradiction | discriminate].
  - eexists. split; [apply list_lookup_insert_eq; exact Hlt|]. simpl.
    split; [|discriminate]. intros _. apply Hiff. intros Hnil.
    rewrite Hnil, Array_splice1_nil in Hsplice. discriminate.
Qed.

Lemma addRegionToAsset_asset_state (region : loc) :
  keeps keeps_asset_state (addRegionToAsset region).
Proof.
  intros c (arr & Harr & Hiff).
  assert (Hlt : (regions (selectedAsset (props c)) < length (arrays c))%nat)
    by (eapply lookup_lt_Some; exact Harr).
  unfold addRegionToAsset, bind, get, readArray. simpl. rewrite Harr. simpl.
  rewrite list_lookup_insert_eq by exact Hlt. simpl.
  unfold Array_push. destruct (items arr); simpl;
    (eexists; split; [apply list_lookup_insert_eq; exact Hlt|]; simpl;
     split; [reflexivity | discriminate]).
Qed.

Lemma keeps_asset_state_of {A} (m : Handler A) :
  keeps same_asset m → keeps keeps_asset_state m.
Proof. apply keeps_weaken. exact same_asset_keeps. Qed.

Lemma onRegionDelete_asset_state (id : string) :
  keeps keeps_asset_state (onRegionDelete id).
Proof.
  unfold onRegionDelete.
  apply keeps_bind; [apply _ | |].
  { apply keeps_asset_state_of, keeps_same_asset_RM_deleteRegionById. }
  intros _. apply keeps_bind; [apply _ | |].
  { apply deleteRegionFromAsset_asset_state. }
  intros md. apply keeps_bind; [apply _ | |].
  { apply keeps_asset_state_of, keeps_same_asset_onAssetMetadataChanged. }
  intros _. apply keeps_bind; [apply _ | |].
  { apply keeps_asset_state_of, keeps_same_asset_newArray. }
  intros sel. apply keeps_asset_state_of, keeps_same_asset_setSelectedRegions.
Qed.

Lemma cutRegions_asset_state : keeps keeps_asset_state cutRegions.
Proof.
  unfold cutRegions.
  apply keeps_bind; [apply _ | |].
  { apply keeps_asset_state_of, keeps_same_asset_copyRegions. }
  intros _. apply keeps_bind; [apply _ | apply keeps_get; apply _ |].
  intros c. apply keeps_bind; [apply _ | apply keeps_liftE; apply _ |].
  intros sel. apply keeps_forOf; [apply _ ..|]. intros region.
  apply keeps_bind; [apply _ | apply keeps_deref; apply _ |].
  intros r. apply onRegionDelete_asset_state.
Qed.

Lemma clearRegions_asset_state : keeps keeps_asset_state clearRegions.
Proof.
  unfold clearRegions.
  apply keeps_bind; [apply _ | apply keeps_get; apply _ |]. intros c.
  apply keeps_bind; [apply _ | apply keeps_readArray; apply _ |]. intros arr.
  apply keeps_bind; [apply _ | apply keeps_liftE; apply _ |]. intros ids.
  apply keeps_forEach; [apply _ ..|]. apply onRegionDelete_asset_state.
Qed.

Lemma addRegionsFrom_asset_state (regions : list loc)
    (md : option IAssetMetadata) :
  keeps keeps_asset_state (addRegionsFrom regions md).
Proof.
  revert md. induction regions as [|region rest IH]; intros md; simpl.
  - apply keeps_ret. apply _.
  - apply keeps_bind; [apply _ | apply keeps_deref; apply _ |]. intros r.
    apply keeps_bind; [apply _ | |].
    { apply keeps_asset_state_of, keeps_same_asset_getTagsDescriptor. }
    intros td. apply keeps_bind; [apply _ | |].
    { apply keeps_asset_state_of, keeps_same_asset_RM_addRegion. }
    intros _. apply keeps_bind; [apply _ | |].
    { apply addRegionToAsset_asset_state. }
    intros md'. apply IH.
Qed.

Lemma pasteRegions_asset_state : keeps keeps_asset_state pasteRegions.
Proof.
  unfold pasteRegions.
  apply keeps_bind; [apply _ | apply keeps_get; apply _ |]. intros c.
  apply keeps_bind; [apply _ | |].
  { unfold clipBoard_get. apply keeps_bind; [apply _ | apply keeps_get; apply _ |].
    intros c'. apply keeps_ret. apply _. }
  intros [snapshot|]; [|apply keeps_ret; apply _].
  apply keeps_bind; [apply _ | |].
  { apply keeps_asset_state_of, keeps_same_asset_duplicate. }
  intros newRegions. unfold addRegions.
  apply keeps_bind; [apply _ | apply addRegionsFrom_asset_state |].
  intros md. apply keeps_asset_state_of, keeps_same_asset_onAssetMetadataChanged.
Qed.

(** [onSelectionEnd] ends at the call of [getRegion]: by then it has taken
    an id from the generator and drawn the region on the surface. *)
Lemma onSelectionEnd_throws (commit : RegionData) (c : Canvas) :
  onSelectionEnd commit c
  = Throw (with_editor
             {| RM := RM (editor c)
                      ++ [{| surface_id := generate (shortid c);
                             surface_data := commit;
                             surface_tags := None |}];
                AS := AS (editor c) |}
             (with_shortid (S (shortid c)) c)).
Proof. reflexivity. Qed.

(** [pasteRegions] returns at once without a snapshot and otherwise ends at
    the call of [duplicateAndTransformRegions]. *)
Lemma pasteRegions_outcome (c : Canvas) :
  pasteRegions c
  = match clipBoard c with Some _ => Throw c | None => Return tt c end.
Proof.
  unfold pasteRegions, clipBoard_get, bind, get. simpl.
  destruct (clipBoard c); reflexivity.
Qed.

Lemma onSelectionEnd_asset_state (commit : RegionData) :
  keeps keeps_asset_state (onSelectionEnd commit).
Proof.
  intros c Hok. rewrite onSelectionEnd_throws. exact Hok.
Qed.

Lemma addRegions_asset_state (regions : list loc) :
  keeps keeps_asset_state (addRegions regions).
Proof.
  unfold addRegions.
  apply keeps_bind; [apply _ | apply addRegionsFrom_asset_state |].
  intros md. apply keeps_asset_state_of, keeps_same_asset_onAssetMetadataChanged.
Qed.

(** When [onRegionDelete] returns with the asset empty, the asset is
    [Visited], whatever its state was. *)
Lemma onRegionDelete_emptied (id : string) (c c' : Canvas)
    (arr arr' : RegionArray) :
  arrays c !! regions (selectedAsset (props c)) = Some arr →
  onRegionDelete id c = Return tt c' →
  arrays c' !! regions (selectedAsset (props c')) = Some arr' →
  items arr' = [] →
  asset_state (asset (selectedAsset (props c'))) = Visited.
Proof.
  intros Harr.
  assert (Hlt : (regions (selectedAsset (props c)) < length (arrays c))%nat)
    by (eapply lookup_lt_Some; exact Harr).
  unfold onRegionDelete, RM_deleteRegionById, deleteRegionFromAsset,
    onAssetMetadataChanged, newArray, setSelectedRegions, bind, get,
    readArray, writeArray, modify.
  simpl. rewrite Harr. simpl.
  destruct (Array_findIndexE _ _ _) as [idx|]; simpl; [|discriminate].
  rewrite list_lookup_insert_eq by exact Hlt. simpl.
  destruct (Array_splice1 idx (items arr)) as [|r rs] eqn:Hsplice; simpl;
    intros [= <-]; simpl; [reflexivity|].
  rewrite lookup_app_l by (rewrite length_insert; exact Hlt).
  rewrite list_lookup_insert_eq by exact Hlt. intros [= <-]. simpl.
  discriminate.
Qed.

(** C7: if the asset is [Tagged] exactly when it has regions, it still is
    after draw-end, paste, delete, cut and clear-all, however the handler
    ends, and after [addRegions], whatever regions it is given.  Draw-end
    and paste end at [CanvasHelpers.getRegion] and
    [CanvasHelpers.duplicateAndTransformRegions], before they reach the
    asset.  Moreover [addRegionToAsset] leaves the asset [Tagged], and
    [deleteRegionFromAsset] and [onRegionDelete] leave it [Visited] when no
    region remains. *)
Theorem asset_state_preserved (c : Canvas) (commit : RegionData)
    (id : string) (region : loc) :
  asset_state_ok c →
  asset_state_ok (after (onSelectionEnd commit c))
  ∧ asset_state_ok (after (pasteRegions c))
  ∧ asset_state_ok (after (onRegionDelete id c))
  ∧ asset_state_ok (after (cutRegions c))
  ∧ asset_state_ok (after (clearRegions c))
  ∧ (∀ regions, asset_state_ok (after (addRegions regions c)))
  ∧ (∀ md c', addRegionToAsset region c = Return md c' →
       asset_state (asset (selectedAsset (props c'))) = Tagged
       ∧ ∃ arr', arrays c' !! regions (selectedAsset (props c')) = Some arr'
                 ∧ items arr' ≠ [])
  ∧ (∀ md c' arr', deleteRegionFromAsset id c = Return md c' →
       arrays c' !! regions (selectedAsset (props c')) = Some arr' →
       items arr' = [] →
       asset_state (asset (selectedAsset (props c'))) = Visited)
  ∧ (∀ c' arr', onRegionDelete id c = Return tt c' →
       arrays c' !! regions (selectedAsset (props c')) = Some arr' →
       items arr' = [] →
       asset_state (asset (selectedAsset (props c'))) = Visited).
Proof.
  intros Hok.
  split; [apply onSelectionEnd_asset_state, Hok|].
  split; [apply pasteRegions_asset_state, Hok|].
  split; [apply onRegionDelete_asset_state, Hok|].
  split; [apply cutRegions_asset_state, Hok|].
  split; [apply clearRegions_asset_state, Hok|].
  split; [intros regions; apply addRegions_asset_state, Hok|].
  destruct Hok as (arr & Harr & Hiff).
  assert (Hlt : (regions (selectedAsset (props c)) < length (arrays c))%nat)
    by (eapply lookup_lt_Some; exact Harr).
  split; [|split].
  - intros md c'. unfold addRegionToAsset, bind, get, readArray. simpl.
    rewrite Harr. simpl. rewrite list_lookup_insert_eq by exact Hlt. simpl.
    rewrite bool_decide_eq_true_2
      by (unfold Array_push; rewrite length_app; simpl; lia).
    simpl. intros [= _ <-]. simpl. split; [reflexivity|].
    eexists. split; [apply list_lookup_insert_eq; exact Hlt|]. simpl.
    unfold Array_push. destruct (items arr); discriminate.
  - intros md c' arr'. unfold deleteRegionFromAsset, bind, get, readArray.
    simpl. rewrite Harr. simpl.
    destruct (Array_findIndexE _ _ _) as [idx|]; simpl; [|discriminate].
    rewrite list_lookup_insert_eq by exact Hlt. simpl.
    destruct (Array_splice1 idx (items arr)) as [|r rs] eqn:Hsplice; simpl;
      intros [= _ <-]; simpl; [reflexivity|].
    rewrite list_lookup_insert_eq by exact Hlt. intros [= <-]. simpl.
    discriminate.
  - intros c' arr'. apply (onRegionDelete_emptied id c c' arr arr' Harr).
Qed.

(** ** Region-select *)

Lemma Array_findE_ext {A} (p q : A → option bool) (l : list A) :
  Forall (λ x, p x = q x) l → Array_findE p l = Array_findE q l.
Proof.
  induction 1 as [|x l Hx _ IH]; simpl; [reflexivity|].
  rewrite Hx, IH. reflexivity.
Qed.

Lemma Array_findE_absent (objs : list IRegion) (id : string) (l : list ref) :
  all_regions objs l → id ∉ ids_of objs l →
  Array_findE (hasId objs id) l = Some None.
Proof.
  induction 1 as [|r l [o Ho] _ IH]; intros Hid; [reflexivity|].
  simpl. rewrite hasId_region_at, Ho. simpl.
  unfold ids_of in Hid. simpl in Hid. rewrite Ho in Hid. simpl in Hid.
  apply not_elem_of_cons in Hid as [Hne Hid].
  rewrite bool_decide_eq_false_2 by congruence. apply IH. exact Hid.
Qed.

(** With the id present, the search returns the first region carrying it. *)
Lemma Array_findE_present (objs : list IRegion) (id : string) (l : list ref) :
  all_regions objs l → id ∈ ids_of objs l →
  ∃ l1 x l2 o,
    l = l1 ++ Some x :: l2 ∧ objs !! x = Some o ∧ region_id o = id
    ∧ (id ∉ ids_of objs l1)
    ∧ Array_findE (hasId objs id) l = Some (Some (Some x)).
Proof.
  induction 1 as [|r l [o Ho] _ IH]; intros Hid.
  - unfold ids_of in Hid. simpl in Hid. inversion Hid.
  - unfold ids_of in Hid. simpl in Hid. rewrite Ho in Hid. simpl in Hid.
    destruct (decide (region_id o = id)) as [Heq | Hne].
    + destruct r as [x|]; [|discriminate]. simpl in Ho.
      exists [], x, l, o. repeat split; try assumption.
      * unfold ids_of. simpl. apply not_elem_of_nil.
      * simpl. rewrite Ho. rewrite bool_decide_eq_true_2 by exact Heq.
        reflexivity.
    + apply elem_of_cons in Hid as [Heq | Hid]; [congruence|].
      destruct (IH Hid) as (l1 & x & l2 & o' & -> & Hx & Hido & Hl1 & Hfind).
      exists (r :: l1), x, l2, o'. repeat split; try assumption.
      * unfold ids_of. simpl. rewrite Ho. simpl.
        apply not_elem_of_cons. split; [congruence | exact Hl1].
      * simpl. rewrite hasId_region_at, Ho. simpl.
        rewrite bool_decide_eq_false_2 by exact Hne. exact Hfind.
Qed.

Lemma sameId_hasId (objs : list IRegion) (x : loc) (o : IRegion)
    (l : list ref) :
  objs !! x = Some o →
  Forall (λ r, sameId objs (Some x) r = hasId objs (region_id o) r) l.
Proof.
  intros Hx. apply Forall_forall. intros r _.
  unfold sameId, hasId. destruct r as [y|]; simpl; [|reflexivity].
  destruct (objs !! y); simpl; [|reflexivity]. rewrite Hx. reflexivity.
Qed.

Lemma ids_of_snoc (objs : list IRegion) (l : list ref) (x : loc)
    (o : IRegion) :
  objs !! x = Some o → ids_of objs (l ++ [Some x]) = ids_of objs l ++ [region_id o].
Proof.
  intros Hx. unfold ids_of. rewrite omap_app. simpl. rewrite Hx. reflexivity.
Qed.

Lemma all_regions_snoc (objs : list IRegion) (l : list ref) (x : loc)
    (o : IRegion) :
  objs !! x = Some o → all_regions objs l → all_regions objs (l ++ [Some x]).
Proof.
  intros Hx Hl. apply Forall_app. split; [exact Hl|].
  constructor; [|constructor]. exists o. exact Hx.
Qed.

(** One click on a region whose id the asset has. *)
Lemma onRegionSelected_step (id : string) (c : Canvas) (arr sarr : RegionArray)
    (sel : loc) :
  arrays c !! regions (selectedAsset (props c)) = Some arr →
  all_regions (regionObjects c) (items arr) →
  selectedRegions (state c) = Some sel →
  arrays c !! sel = Some sarr →
  all_regions (regionObjects c) (items sarr) →
  id ∈ ids_of (regionObjects c) (items arr) →
  ∃ c' x o l1 l2 sel' sarr',
    onRegionSelected id c = Return tt c'
    ∧ items arr = l1 ++ Some x :: l2
    ∧ (id ∉ ids_of (regionObjects c) l1)
    ∧ regionObjects c !! x = Some o ∧ region_id o = id
    ∧ regionObjects c' = regionObjects c
    ∧ props c' = props c
    ∧ multiSelect (state c') = multiSelect (state c)
    ∧ arrays c' !! regions (selectedAsset (props c)) = Some arr
    ∧ selectedRegions (state c') = Some sel'
    ∧ arrays c' !! sel' = Some sarr'
    ∧ items sarr' =
        if multiSelect (state c)
        then if bool_decide (id ∈ ids_of (regionObjects c) (items sarr))
             then items sarr
             else items sarr ++ [Some x]
        else [Some x].
Proof.
  intros Harr Hall Hsel Hsarr Hsall Hid.
  destruct (Array_findE_present _ _ _ Hall Hid)
    as (l1 & x & l2 & o & Hitems & Hx & Hido & Hl1 & Hfind).
  assert (Hlt : (sel < length (arrays c))%nat)
    by (eapply lookup_lt_Some; exact Hsarr).
  unfold onRegionSelected, bind, get, readArray. simpl.
  rewrite Harr. simpl. rewrite Hfind. simpl.
  destruct (multiSelect (state c)) eqn:Hmulti.
  - rewrite Hsel. simpl. rewrite Hsarr. simpl.
    rewrite (Array_findE_ext _ _ _ (sameId_hasId _ _ _ (items sarr) Hx)).
    rewrite Hido.
    destruct (decide (id ∈ ids_of (regionObjects c) (items sarr)))
      as [Hin | Hout].
    + destruct (Array_findE_present _ _ _ Hsall Hin)
        as (? & y & ? & ? & _ & _ & _ & _ & Hfound).
      rewrite Hfound. simpl.
      rewrite (bool_decide_eq_true_2 _ Hin).
      eexists _, x, o, l1, l2, sel, sarr.
      split; [reflexivity|]. simpl. rewrite Hmulti. repeat split; assumption.
    + rewrite (Array_findE_absent _ _ _ Hsall Hout). simpl.
      rewrite (bool_decide_eq_false_2 _ Hout).
      eexists _, x, o, l1, l2, sel,
        {| items := Array_push (items sarr) (Some x); minus1 := minus1 sarr |}.
      split; [reflexivity|]. simpl. rewrite Hmulti.
      repeat split; try assumption.
      * rewrite list_lookup_insert_ne; [exact Harr|].
        intros ->. rewrite Harr in Hsarr. injection Hsarr as ->.
        contradiction.
      * apply list_lookup_insert_eq. exact Hlt.
  - eexists _, x, o, l1, l2, (length (arrays c)),
      {| items := [Some x]; minus1 := None |}.
    split; [reflexivity|]. simpl. rewrite Hmulti.
    repeat split; try assumption.
    + apply lookup_app_l_Some. exact Harr.
    + rewrite lookup_app_r by lia. rewrite Nat.sub_diag. reflexivity.
Qed.

Lemma select_events_distinct (events : list SelectEvent) :
  ∀ (c : Canvas) (arr sarr : RegionArray) (sel : loc),
  arrays c !! regions (selectedAsset (props c)) = Some arr →
  all_regions (regionObjects c) (items arr) →
  selectedRegions (state c) = Some sel →
  arrays c !! sel = Some sarr →
  all_regions (regionObjects c) (items sarr) →
  NoDup (ids_of (regionObjects c) (items sarr)) →
  (∀ id, RegionSelected id ∈ events →
         id ∈ ids_of (regionObjects c) (items arr)) →
  ∃ c' sel' sarr',
    forEach events fire c = Return tt c'
    ∧ selectedRegions (state c') = Some sel'
    ∧ arrays c' !! sel' = Some sarr'
    ∧ all_regions (regionObjects c') (items sarr')
    ∧ NoDup (ids_of (regionObjects c') (items sarr')).
Proof.
  induction events as [|e events IH];
    intros c arr sarr sel Harr Hall Hsel Hsarr Hsall Hnd Hids.
  - exists c, sel, sarr. repeat split; assumption.
  - assert (Hrest : ∀ id, RegionSelected id ∈ events →
                      id ∈ ids_of (regionObjects c) (items arr))
      by (intros id Hin; apply Hids; right; exact Hin).
    simpl. unfold bind. destruct e as [id | down]; simpl.
    + assert (Hid : id ∈ ids_of (regionObjects c) (items arr))
        by (apply Hids; left).
      destruct (onRegionSelected_step id c arr sarr sel
                  Harr Hall Hsel Hsarr Hsall Hid)
        as (c1 & x & o & l1 & l2 & sel1 & sarr1 & Hrun & _ & _ & Hx & Hido
            & Hobjs & Hprops & _ & Harr1 & Hsel1 & Hsarr1 & Hitems1).
      rewrite Hrun.
      rewrite <- Hprops in Harr1. rewrite <- Hobjs in Hall, Hrest.
      apply (IH c1 arr sarr1 sel1 Harr1 Hall Hsel1 Hsarr1);
        [| |exact Hrest]; rewrite Hobjs, Hitems1.
      * destruct (multiSelect (state c)); [destruct (bool_decide _)|].
        -- exact Hsall.
        -- eapply all_regions_snoc; eassumption.
        -- constructor; [exists o; exact Hx | constructor].
      * destruct (multiSelect (state c));
          [destruct (bool_decide _) eqn:Hin|].
        -- exact Hnd.
        -- apply bool_decide_eq_false in Hin.
           rewrite (ids_of_snoc _ _ _ _ Hx), Hido.
           apply NoDup_app. split; [exact Hnd|]. split.
           ++ intros t Ht ->%list_elem_of_singleton. contradiction.
           ++ apply NoDup_singleton.
        -- unfold ids_of. simpl. rewrite Hx. simpl. apply NoDup_singleton.
    + unfold setMultiSelect, bind, get. simpl.
      destruct (bool_decide _); simpl;
        eapply IH; simpl; eassumption.
Qed.

(** C9: starting from a selection of distinct regions (the initial, empty
    selection is one), every sequence of region clicks on ids the asset has,
    with the Shift key going down and up in between, runs to the end and
    leaves a selection whose ids are pairwise distinct.  One click in
    multi-select mode appends the first region carrying the id exactly when
    no selected region has that id, and leaves the selection alone
    otherwise; in single-select mode the selection becomes that one
    region. *)
Theorem selectedRegions_distinct (events : list SelectEvent) (c : Canvas)
    (arr sarr : RegionArray) (sel : loc) :
  arrays c !! regions (selectedAsset (props c)) = Some arr →
  all_regions (regionObjects c) (items arr) →
  selectedRegions (state c) = Some sel →
  arrays c !! sel = Some sarr →
  all_regions (regionObjects c) (items sarr) →
  NoDup (ids_of (regionObjects c) (items sarr)) →
  (∀ id, RegionSelected id ∈ events →
         id ∈ ids_of (regionObjects c) (items arr)) →
  (∃ c' sel' sarr',
     forEach events fire c = Return tt c'
     ∧ selectedRegions (state c') = Some sel'
     ∧ arrays c' !! sel' = Some sarr'
     ∧ all_regions (regionObjects c') (items sarr')
     ∧ NoDup (ids_of (regionObjects c') (items sarr')))
  ∧ (∀ id, id ∈ ids_of (regionObjects c) (items arr) →
     ∃ c' x o l1 l2 sel' sarr',
       onRegionSelected id c = Return tt c'
       ∧ items arr = l1 ++ Some x :: l2
       ∧ (id ∉ ids_of (regionObjects c) l1)
       ∧ regionObjects c !! x = Some o ∧ region_id o = id
       ∧ selectedRegions (state c') = Some sel'
       ∧ arrays c' !! sel' = Some sarr'
       ∧ items sarr' =
           if multiSelect (state c)
           then if bool_decide (id ∈ ids_of (regionObjects c) (items sarr))
                then items sarr
                else items sarr ++ [Some x]
           else [Some x]).
Proof.
  intros Harr Hall Hsel Hsarr Hsall Hnd Hids. split.
  - eapply select_events_distinct; eassumption.
  - intros id Hid.
    destruct (onRegionSelected_step id c arr sarr sel
                Harr Hall Hsel Hsarr Hsall Hid)
      as (c1 & x & o & l1 & l2 & sel1 & sarr1 & Hrun & Hsplit & Hl1 & Hx
          & Hido & _ & _ & _ & _ & Hsel1 & Hsarr1 & Hitems1).
    exists c1, x, o, l1, l2, sel1, sarr1. repeat split; assumption.
Qed.

(** ** Region-delete *)

Lemma Array_splice1_last {A} (l : list A) :
  Array_splice1 (-1) l = removelast l.
Proof.
  destruct l as [|x l] using rev_ind; [reflexivity|].
  rewrite Array_splice1_minus1, removelast_last. reflexivity.
Qed.

(** With an id that no region has, [findIndex] gives [-1] and
    [splice(-1, 1)] takes the last region out of the asset. *)
Lemma deleteRegionFromAsset_absent (id : string) (c : Canvas)
    (arr : RegionArray) :
  arrays c !! regions (selectedAsset (props c)) = Some arr →
  all_regions (regionObjects c) (items arr) →
  id ∉ ids_of (regionObjects c) (items arr) →
  ∃ md c',
    deleteRegionFromAsset id c = Return md c'
    ∧ arrays c' !! regions (selectedAsset (props c'))
      = Some {| items := removelast (items arr); minus1 := minus1 arr |}.
Proof.
  intros Harr Hall Hid.
  assert (Hlt : (regions (selectedAsset (props c)) < length (arrays c))%nat)
    by (eapply lookup_lt_Some; exact Harr).
  unfold deleteRegionFromAsset, bind, get, readArray. simpl.
  rewrite Harr. simpl.
  rewrite (Array_findIndexE_absent _ _ _ _ Hall Hid). simpl.
  rewrite list_lookup_insert_eq by exact Hlt. simpl.
  rewrite Array_splice1_last.
  destruct (bool_decide _); simpl; eexists _, _;
    (split; [reflexivity|]); simpl; apply list_lookup_insert_eq; exact Hlt.
Qed.

(** C1 (failing input): the asset holds regions r1 and r2, and the surface
    reports the deletion of an id that neither has.  [onRegionDelete]
    returns, and the asset has lost r2, its last region.  With r1 alone the
    asset is emptied and demoted to [Visited]. *)
Theorem onRegionDelete_absent_removes_last (n : number) :
  let c := sample_canvas [sample_region n "r1" []; sample_region n "r2" []]
             [Some 0; Some 1]%nat [] Tagged None None false in
  let c1 := sample_canvas [sample_region n "r1" []]
              [Some O] [] Tagged None None false in
  ids_of (regionObjects c) [Some 0; Some 1]%nat = ["r1"; "r2"]%string
  ∧ returned (onRegionDelete "stale" c) = true
  ∧ items <$> arrays (after (onRegionDelete "stale" c)) !! O
    = Some [Some O]
  ∧ items <$> arrays (after (onRegionDelete "stale" c1)) !! O = Some []
  ∧ asset_state (asset (selectedAsset
                          (props (after (onRegionDelete "stale" c1)))))
    = Visited.
Proof. vm_compute. repeat split. Qed.

(** ** Tag application *)

(** The body of the loop of [applyTags] never completes: every path ends
    in the call of [getTagsDescriptor] with the region alone. *)
Lemma applyTagsTo_throws (region : ref) (c : Canvas) :
  returned (applyTagsTo region c) = false.
Proof.
  unfold applyTagsTo. destruct region as [l|]; [|reflexivity].
  rewrite returned_bind. simpl. rewrite returned_bind.
  match goal with |- context [match ?m c with _ => _ end] =>
    destruct (m c) as [[] c1|]; [|reflexivity] end.
  rewrite returned_bind. destruct (deref (Some l) c1) as [r c2|]; [|reflexivity].
  rewrite returned_bind, getTagsDescriptor_undefined_region. reflexivity.
Qed.

(** C3 (failing input): region r1, tagged a, is selected and the armed tags
    are [b].  [applyTags] throws at [getTagsDescriptor]; by then r1's [tags]
    holds [undefined], the value of the call to [toggleTag], and not [a; b];
    the host is not notified.  In general the loop body throws for every
    selected region, so the host is notified only of an empty selection. *)
Theorem applyTags_loses_tags (n : number) :
  let c := sample_canvas [sample_region n "r1" ["a"%string]]
             [Some O] [Some O] Tagged
             (Some {| tags_ref := 1; tags_items := ["b"%string] |})
             None false in
  toggleTag ["a"%string] "b" = ["a"; "b"]%string
  ∧ applyTags c
    = Throw (with_regionObjects
               [set_tags None (sample_region n "r1" ["a"%string])] c)
  ∧ ∀ region c', returned (applyTagsTo region c') = false.
Proof.
  split; [reflexivity|]. split; [|exact applyTagsTo_throws].
  unfold applyTags, forOf, bind, get, readArray. simpl.
  unfold applyTagsTo, bind, get. simpl. unfold bind. simpl.
  rewrite getTagsDescriptor_undefined_region. reflexivity.
Qed.

(** ** Paste *)

(** [addRegions] asks for the tag descriptor of the first new region before
    it adds the region to the asset, and that call throws: no region is ever
    appended. *)
Lemma addRegionsFrom_throws (region : loc) (rest : list loc)
    (md : option IAssetMetadata) (c : Canvas) :
  addRegionsFrom (region :: rest) md c = Throw c.
Proof.
  simpl. unfold bind, deref.
  destruct (regionObjects c !! region); [|reflexivity].
  rewrite getTagsDescriptor_undefined_region. reflexivity.
Qed.

Lemma addRegions_appends_nothing (regions : list loc) (c : Canvas) :
  arrays (after (addRegions regions c)) = arrays c
  ∧ props (after (addRegions regions c)) = props c.
Proof.
  unfold addRegions. rewrite after_bind.
  destruct regions as [|region rest].
  - simpl. split; reflexivity.
  - rewrite addRegionsFrom_throws. split; reflexivity.
Qed.

(** C2 (failing input): the clipboard holds a snapshot of r1 and the asset
    holds r1.  [pasteRegions] throws at the call of
    [CanvasHelpers.duplicateAndTransformRegions], which canvasHelpers.ts
    does not define: the asset's regions are still r1 alone and the host is
    not notified.  And [addRegions], the step that would follow, leaves the
    asset as it was, whatever regions it is given. *)
Theorem pasteRegions_appends_nothing (n : number) :
  let r1 := sample_region n "r1" ["a"%string] in
  let c := sample_canvas [r1] [Some O] [] Tagged None (Some [Some r1]) false in
  pasteRegions c = Throw c
  ∧ items <$> arrays (after (pasteRegions c)) !! O = Some [Some O]
  ∧ host (after (pasteRegions c)) = []
  ∧ ∀ regions c',
      arrays (after (addRegions regions c')) = arrays c'
      ∧ props (after (addRegions regions c')) = props c'.
Proof.
  intros r1 c. rewrite pasteRegions_outcome. simpl.
  repeat split; apply addRegions_appends_nothing.
Qed.

(** ** Copy *)

(** C4, as amended: [copyRegions] does nothing only when [selectedRegions]
    is undefined; otherwise it stores a snapshot of the selection, and the
    snapshot of an empty selection is the empty collection, which replaces
    whatever the clipboard held. *)
Theorem copyRegions_stores_selection (c : Canvas) :
  (selectedRegions (state c) = None → copyRegions c = Return tt c)
  ∧ (∀ sel sarr,
       selectedRegions (state c) = Some sel → arrays c !! sel = Some sarr →
       copyRegions c
       = Return tt
           (with_clipBoard
              (Some (region_at (regionObjects c) <$> items sarr)) c))
  ∧ (∀ sel sarr,
       selectedRegions (state c) = Some sel → arrays c !! sel = Some sarr →
       items sarr = [] →
       clipBoard (after (copyRegions c)) = Some []).
Proof.
  assert (Hset : ∀ sel sarr,
    selectedRegions (state c) = Some sel → arrays c !! sel = Some sarr →
    copyRegions c
    = Return tt
        (with_clipBoard
           (Some (region_at (regionObjects c) <$> items sarr)) c)).
  { intros sel sarr Hsel Hsarr.
    unfold copyRegions, clipBoard_set, bind, get, readArray. simpl.
    rewrite Hsel. simpl. rewrite Hsarr. reflexivity. }
  split; [|split].
  - intros Hsel. unfold copyRegions, bind, get. simpl. rewrite Hsel.
    reflexivity.
  - exact Hset.
  - intros sel sarr Hsel Hsarr Hitems.
    rewrite (Hset sel sarr Hsel Hsarr). simpl. rewrite Hitems. reflexivity.
Qed.

(** * Further properties of the helpers and of the component *)

(** ** canvasHelpers.ts: the tag helpers together *)

Lemma removeIfContained_absent (tags : list string) (tag : string) :
  tag ∉ tags → removeIfContained tags tag = tags.
Proof.
  intros H. unfold removeIfContained, findIndex, Array_findIndex.
  rewrite Array_findIndexFrom_none by (apply tag_absent; exact H).
  reflexivity.
Qed.

Lemma removeIfContained_first (l1 l2 : list string) (tag : string) :
  tag ∉ l1 → removeIfContained (l1 ++ tag :: l2) tag = l1 ++ l2.
Proof.
  intros H. unfold removeIfContained, findIndex, Array_findIndex.
  rewrite Array_findIndexFrom_first
    by (first [apply tag_absent; exact H
              | apply bool_decide_eq_true; reflexivity]).
  destruct (Z.leb_spec 0 (0 + Z.of_nat (length l1))) as [_|?]; [|lia].
  simpl. apply Array_splice1_at.
Qed.

Lemma addIfMissing_absent (tags : list string) (tag : string) :
  tag ∉ tags → addIfMissing tags tag = tags ++ [tag].
Proof.
  intros H. unfold addIfMissing. rewrite find_absent by exact H. reflexivity.
Qed.

Lemma addIfMissing_present (tags : list string) (tag : string) :
  tag ≠ EmptyString → tag ∈ tags → addIfMissing tags tag = tags.
Proof.
  intros Hne Hin. unfold addIfMissing. rewrite find_present by exact Hin.
  simpl. rewrite bool_decide_eq_false_2 by exact Hne. reflexivity.
Qed.

Lemma addIfMissing_empty_name (tags : list string) :
  addIfMissing tags EmptyString = tags ++ [EmptyString].
Proof.
  destruct (decide (EmptyString ∈ tags)) as [Hin | Hout].
  - unfold addIfMissing. rewrite find_present by exact Hin. reflexivity.
  - apply addIfMissing_absent. exact Hout.
Qed.

(** What [addIfMissing] returns is the list it was given, followed by the
    tag or by nothing. *)
Lemma addIfMissing_suffix (tags : list string) (tag : string) :
  addIfMissing tags tag = tags ∨ addIfMissing tags tag = tags ++ [tag].
Proof.
  unfold addIfMissing. destruct (negb _); [right | left]; reflexivity.
Qed.

Lemma addIfMissing_elem (tags : list string) (tag : string) :
  tag ∈ addIfMissing tags tag.
Proof.
  destruct (decide (tag ∈ tags)) as [Hin | Hout].
  - destruct (addIfMissing_suffix tags tag) as [-> | ->];
      [exact Hin | apply elem_of_app; left; exact Hin].
  - rewrite addIfMissing_absent by exact Hout.
    apply elem_of_app. right. apply list_elem_of_singleton. reflexivity.
Qed.

(** X1: [removeIfContained] leaves the list alone when the tag is absent
    (the index [-1] is never passed to [splice]); when the tag is present it
    takes out its first occurrence and nothing else, so a duplicate-free
    list no longer holds the tag. *)
Theorem removeIfContained_removes_first (tags : list string) (tag : string) :
  (tag ∉ tags → removeIfContained tags tag = tags)
  ∧ (∀ l1 l2, tags = l1 ++ tag :: l2 → tag ∉ l1 →
       removeIfContained tags tag = l1 ++ l2)
  ∧ (NoDup tags → tag ∉ removeIfContained tags tag).
Proof.
  split; [apply removeIfContained_absent|]. split.
  - intros l1 l2 -> H. apply removeIfContained_first. exact H.
  - intros Hnd. destruct (decide (tag ∈ tags)) as [Hin | Hout].
    + destruct (tag_split _ _ Hin) as (l1 & l2 & -> & H1).
      rewrite removeIfContained_first by exact H1.
      apply NoDup_app in Hnd as (_ & _ & Hnd2).
      apply NoDup_cons in Hnd2 as [H2 _].
      rewrite elem_of_app. intros [?|?]; contradiction.
    + rewrite removeIfContained_absent by exact Hout. exact Hout.
Qed.

(** X2: [toggleTag] is [removeIfContained] when the tag is in the list and
    [addIfMissing] when it is not, for every list and every tag name. *)
Theorem toggleTag_remove_or_add (tags : list string) (tag : string) :
  toggleTag tags tag
  = if bool_decide (tag ∈ tags) then removeIfContained tags tag
    else addIfMissing tags tag.
Proof.
  destruct (decide (tag ∈ tags)) as [Hin | Hout].
  - rewrite (bool_decide_eq_true_2 _ Hin).
    destruct (tag_split _ _ Hin) as (l1 & l2 & -> & H1).
    rewrite toggleTag_present, removeIfContained_first by exact H1.
    reflexivity.
  - rewrite (bool_decide_eq_false_2 _ Hout).
    rewrite toggleTag_absent, addIfMissing_absent by exact Hout.
    reflexivity.
Qed.

(** X3: adding a tag that is absent and removing it again gives back the
    list, for every tag name; removing a present, non-empty tag from a
    duplicate-free list and adding it again gives the same tags, the tag
    now last. *)
Theorem addIfMissing_removeIfContained (tags : list string) (tag : string) :
  (tag ∉ tags → removeIfContained (addIfMissing tags tag) tag = tags)
  ∧ (NoDup tags → tag ≠ EmptyString →
     ∀ l1 l2, tags = l1 ++ tag :: l2 →
       addIfMissing (removeIfContained tags tag) tag = l1 ++ l2 ++ [tag]).
Proof.
  split.
  - intros Hout. rewrite addIfMissing_absent by exact Hout.
    replace (tags ++ [tag]) with (tags ++ tag :: []) by reflexivity.
    rewrite removeIfContained_first by exact Hout. apply app_nil_r.
  - intros Hnd Hne l1 l2 ->.
    apply NoDup_app in Hnd as (_ & Hdisj & Hnd2).
    apply NoDup_cons in Hnd2 as [H2 _].
    assert (H1 : tag ∉ l1).
    { intros Hin. apply (Hdisj _ Hin). left. }
    rewrite removeIfContained_first by exact H1.
    rewrite addIfMissing_absent
      by (rewrite elem_of_app; intros [?|?]; contradiction).
    rewrite <- (assoc_L (++)). reflexivity.
Qed.

(** X4: [addIfMissing] is idempotent for a non-empty tag name; with the
    empty tag name it appends on every call, whatever the list holds. *)
Theorem addIfMissing_idempotent :
  (∀ tags tag, tag ≠ EmptyString →
     addIfMissing (addIfMissing tags tag) tag = addIfMissing tags tag)
  ∧ (∀ tags, addIfMissing tags EmptyString = tags ++ [EmptyString]).
Proof.
  split; [|exact addIfMissing_empty_name].
  intros tags tag Hne. apply addIfMissing_present; [exact Hne|].
  apply addIfMissing_elem.
Qed.

(** X5: [addAllIfMissing] only appends: the result is the given list
    followed by some of the targets; every target ends up in it; and a
    duplicate-free list stays duplicate-free when no target is the empty
    tag name. *)
Theorem addAllIfMissing_appends (targets tags : list string) :
  (∃ added, addAllIfMissing tags targets = tags ++ added
            ∧ ∀ t, t ∈ added → t ∈ targets)
  ∧ (∀ t, t ∈ targets → t ∈ addAllIfMissing tags targets)
  ∧ (NoDup tags → EmptyString ∉ targets →
     NoDup (addAllIfMissing tags targets)).
Proof.
  unfold addAllIfMissing.
  assert (Happ : ∀ targets tags,
    ∃ added, foldl addIfMissing tags targets = tags ++ added
             ∧ ∀ t, t ∈ added → t ∈ targets).
  { clear. induction targets as [|target rest IH]; intros tags; simpl.
    - exists []. split; [symmetry; apply app_nil_r|]. intros t Ht.
      inversion Ht.
    - destruct (IH (addIfMissing tags target)) as (added & -> & Hadded).
      destruct (addIfMissing_suffix tags target) as [-> | ->].
      + exists added. split; [reflexivity|]. intros t Ht. right. auto.
      + exists (target :: added). split.
        * rewrite <- (assoc_L (++)). reflexivity.
        * intros t [->|Ht]%elem_of_cons; [left | right; auto]. }
  split; [apply Happ|]. split.
  - revert tags. induction targets as [|target rest IH]; intros tags t Ht;
      simpl.
    + inversion Ht.
    + apply elem_of_cons in Ht as [-> | Ht]; [|apply IH; exact Ht].
      destruct (Happ rest (addIfMissing tags target)) as (added & -> & _).
      apply elem_of_app. left. apply addIfMissing_elem.
  - revert tags. induction targets as [|target rest IH]; intros tags Hnd He;
      simpl; [exact Hnd|].
    apply not_elem_of_cons in He as [Hne He].
    apply IH; [|exact He].
    destruct (decide (target ∈ tags)) as [Hin | Hout].
    + rewrite addIfMissing_present by (first [congruence | exact Hin]).
      exact Hnd.
    + rewrite addIfMissing_absent by exact Hout.
      apply NoDup_app. split; [exact Hnd|]. split.
      * intros t Ht ->%list_elem_of_singleton. contradiction.
      * apply NoDup_singleton.
Qed.

(** ** canvasHelpers.ts: geometry and tag descriptors *)

Lemma Array_find_Some {A} (p : A → bool) (l : list A) (x : A) :
  Array_find p l = Some x → x ∈ l ∧ p x = true.
Proof.
  induction l as [|y l IH]; simpl; [discriminate|].
  destruct (p y) eqn:Hy.
  - intros [= <-]. split; [left | exact Hy].
  - intros H. destruct (IH H) as [Hin Hx]. split; [right; exact Hin | exact Hx].
Qed.

Lemma Array_find_None {A} (p : A → bool) (l : list A) :
  Array_find p l = None → ∀ x, x ∈ l → p x = false.
Proof.
  induction l as [|y l IH]; simpl; intros H x Hx; [inversion Hx|].
  destruct (p y) eqn:Hy; [discriminate|].
  apply elem_of_cons in Hx as [-> | Hx]; [exact Hy | apply IH; assumption].
Qed.

(** X6: [getRegionData] hands the surface the region's points, one for one
    and in order.  Its surface type is [undefined] exactly when the region's
    type is none of the four the [switch] of [regionTypeToType] names, and
    a region type the [switch] names is given a surface type that no other
    region type is given. *)
Theorem getRegionData_geometry (region : IRegion) :
  rd_points (getRegionData region) = region_points region
  ∧ (rd_type (getRegionData region) = None
     ↔ region_type region = OtherRegionType)
  ∧ (∀ t t', t ≠ t' → is_Some (regionTypeToType t) →
       regionTypeToType t ≠ regionTypeToType t').
Proof.
  split; [|split].
  - simpl. induction (region_points region) as [|[] pts IH];
      [reflexivity | simpl; f_equal; exact IH].
  - simpl. destruct (region_type region); simpl;
      split; intros H; solve [reflexivity | discriminate H].
  - intros [] [] Hne [d Hd]; simpl in *;
      solve [discriminate | contradiction].
Qed.

(** X7: called with the project's tags and a region whose [tags] is an
    array, and with both guards passing, [getTagsDescriptor] returns without
    changing the component; the descriptor holds, in the order of the
    region's tag names, one project tag for each name the project defines,
    and drops the names it does not define (an empty [tags] gives an empty
    descriptor). *)
Theorem getTagsDescriptor_resolves (pts : list ITag) (l : loc) (r : IRegion)
    (names : list string) (c : Canvas) :
  Guard_null (ArgProjectTags pts) = false →
  Guard_null (ArgRegion l) = false →
  regionObjects c !! l = Some r →
  region_tags r = Some names →
  ∃ td, getTagsDescriptor (ArgProjectTags pts) (ArgRegion l) c = Return td c
        ∧ tag_name <$> td = filter (λ n, n ∈ tag_name <$> pts) names
        ∧ (∀ t, t ∈ td → t ∈ pts)
        ∧ (names = [] → td = []).
Proof.
  intros Hg1 Hg2 Hl Hnames.
  exists (omap (λ tagName,
            Array_find (λ projectTag,
              bool_decide (tag_name projectTag = tagName)) pts) names).
  split; [|split; [|split]].
  - unfold getTagsDescriptor, guard, bind. rewrite Hg1. simpl. rewrite Hg2.
    simpl. rewrite Hl. simpl. rewrite Hnames. simpl.
    destruct names; reflexivity.
  - clear. induction names as [|n names IH]; [reflexivity|]. simpl.
    destruct (Array_find _ pts) as [t|] eqn:Hfind; simpl.
    + destruct (Array_find_Some _ _ _ Hfind) as [Hin Hn].
      apply bool_decide_eq_true in Hn.
      rewrite filter_cons_True
        by (apply list_elem_of_fmap; exists t; split; [symmetry|]; assumption).
      rewrite Hn. f_equal. exact IH.
    + rewrite filter_cons_False; [exact IH|].
      intros (t & Ht & Hin)%list_elem_of_fmap.
      pose proof (Array_find_None _ _ Hfind t Hin) as Hf.
      apply bool_decide_eq_false in Hf. congruence.
  - intros t (n & _ & Hfind)%list_elem_of_omap.
    apply (Array_find_Some _ _ _ Hfind).
  - intros ->. reflexivity.
Qed.

(** ** Region-delete and region-move of a region the asset has *)

Lemma Array_findIndexE_present (objs : list IRegion) (id : string) (i : Z)
    (l1 l2 : list ref) (x : loc) (o : IRegion) :
  all_regions objs l1 → (id ∉ ids_of objs l1) →
  objs !! x = Some o → region_id o = id →
  Array_findIndexE (hasId objs id) i (l1 ++ Some x :: l2)
  = Some (i + Z.of_nat (length l1)).
Proof.
  intros Hall. revert i.
  induction Hall as [|r l [o' Ho'] _ IH]; intros i Hid Hx Hido; simpl.
  - rewrite Hx. rewrite bool_decide_eq_true_2 by exact Hido. f_equal. lia.
  - rewrite hasId_region_at, Ho'. simpl.
    unfold ids_of in Hid. simpl in Hid. rewrite Ho' in Hid. simpl in Hid.
    apply not_elem_of_cons in Hid as [Hne Hid].
    rewrite bool_decide_eq_false_2 by congruence.
    rewrite IH by assumption. f_equal. lia.
Qed.

(** [onRegionDelete] for the id of a region of the asset: the component it
    returns, field by field. *)
Lemma onRegionDelete_present (id : string) (c : Canvas) (arr : RegionArray)
    (l1 l2 : list ref) (x : loc) (o : IRegion) :
  arrays c !! regions (selectedAsset (props c)) = Some arr →
  items arr = l1 ++ Some x :: l2 →
  all_regions (regionObjects c) l1 →
  (id ∉ ids_of (regionObjects c) l1) →
  regionObjects c !! x = Some o → region_id o = id →
  ∃ c',
    onRegionDelete id c = Return tt c'
    ∧ regionObjects c' = regionObjects c
    ∧ arrays c'
      = <[regions (selectedAsset (props c))
          := {| items := l1 ++ l2; minus1 := minus1 arr |}]> (arrays c)
        ++ [{| items := []; minus1 := None |}]
    ∧ state c' = {| selectedRegions := Some (length (arrays c));
                    canvasEnabled := canvasEnabled (state c);
                    multiSelect := multiSelect (state c) |}
    ∧ props c' = (if bool_decide (l1 ++ l2 = [])
                  then props (after (setAssetState Visited c))
                  else props c)
    ∧ host c' = host c ++ [Some (selectedAsset (props c'))]
    ∧ editor c' = {| RM := filter (λ s, surface_id s ≠ id) (RM (editor c));
                     AS := AS (editor c) |}
    ∧ clipBoard c' = clipBoard c
    ∧ shortid c' = shortid c.
Proof.
  intros Harr Hitems Hall Hid Hx Hido.
  assert (Hlt : (regions (selectedAsset (props c)) < length (arrays c))%nat)
    by (eapply lookup_lt_Some; exact Harr).
  unfold onRegionDelete, RM_deleteRegionById, deleteRegionFromAsset, bind,
    get, readArray, modify. simpl. rewrite Harr. simpl. rewrite Hitems.
  rewrite (Array_findIndexE_present _ _ _ _ _ _ _ Hall Hid Hx Hido). simpl.
  rewrite Z.add_0_l, Array_splice1_at.
  rewrite list_lookup_insert_eq by exact Hlt. simpl.
  destruct (l1 ++ l2) as [|r rs] eqn:Hrest; simpl;
    (eexists; split; [reflexivity|]); simpl;
    rewrite ?length_insert; repeat split.
Qed.

(** X8: when the asset has a region with the deleted id, [onRegionDelete]
    returns and removes the first such region, keeping the others in order
    and leaving every region object as it was; the surface loses the regions
    drawn under that id, the selection becomes a new empty array, the asset
    is demoted to [Visited] exactly when no region remains, and the host is
    notified once, with the asset as it is afterwards. *)
Theorem onRegionDelete_removes_first (id : string) (c : Canvas)
    (arr : RegionArray) (l1 l2 : list ref) (x : loc) (o : IRegion) :
  arrays c !! regions (selectedAsset (props c)) = Some arr →
  items arr = l1 ++ Some x :: l2 →
  all_regions (regionObjects c) l1 →
  (id ∉ ids_of (regionObjects c) l1) →
  regionObjects c !! x = Some o → region_id o = id →
  ∃ c' arr' sel sarr,
    onRegionDelete id c = Return tt c'
    ∧ arrays c' !! regions (selectedAsset (props c')) = Some arr'
    ∧ items arr' = l1 ++ l2
    ∧ regionObjects c' = regionObjects c
    ∧ RM (editor c') = filter (λ s, surface_id s ≠ id) (RM (editor c))
    ∧ selectedRegions (state c') = Some sel
    ∧ arrays c !! sel = None
    ∧ arrays c' !! sel = Some sarr ∧ items sarr = []
    ∧ asset_state (asset (selectedAsset (props c')))
      = (if bool_decide (l1 ++ l2 = []) then Visited
         else asset_state (asset (selectedAsset (props c))))
    ∧ host c' = host c ++ [Some (selectedAsset (props c'))].
Proof.
  intros Harr Hitems Hall Hid Hx Hido.
  assert (Hlt : (regions (selectedAsset (props c)) < length (arrays c))%nat)
    by (eapply lookup_lt_Some; exact Harr).
  destruct (onRegionDelete_present id c arr l1 l2 x o
              Harr Hitems Hall Hid Hx Hido)
    as (c' & Hrun & Hobjs & Harrs & Hstate & Hprops & Hhost & Hed & _ & _).
  assert (Hregions : regions (selectedAsset (props c'))
                     = regions (selectedAsset (props c))).
  { rewrite Hprops. destruct (bool_decide _); reflexivity. }
  exists c', {| items := l1 ++ l2; minus1 := minus1 arr |},
    (length (arrays c)), {| items := []; minus1 := None |}.
  split; [exact Hrun|]. rewrite Hregions, Harrs, Hstate, Hed. simpl.
  repeat split; try assumption.
  - rewrite lookup_app_l by (rewrite length_insert; exact Hlt).
    apply list_lookup_insert_eq. exact Hlt.
  - apply lookup_ge_None_2. lia.
  - rewrite lookup_app_r by (rewrite length_insert; lia).
    rewrite length_insert, Nat.sub_diag. reflexivity.
  - rewrite Hprops. destruct (bool_decide _); reflexivity.
Qed.

(** X9: when no region of the asset has the deleted id, [onRegionDelete]
    still returns, and the asset has lost its last region ([findIndex] gives
    [-1], and [splice(-1, 1)] counts from the end); an empty asset stays
    empty. *)
Theorem onRegionDelete_absent_drops_last (id : string) (c : Canvas)
    (arr : RegionArray) :
  arrays c !! regions (selectedAsset (props c)) = Some arr →
  all_regions (regionObjects c) (items arr) →
  (id ∉ ids_of (regionObjects c) (items arr)) →
  ∃ c' arr',
    onRegionDelete id c = Return tt c'
    ∧ arrays c' !! regions (selectedAsset (props c')) = Some arr'
    ∧ items arr' = removelast (items arr)
    ∧ regionObjects c' = regionObjects c.
Proof.
  intros Harr Hall Hid.
  assert (Hlt : (regions (selectedAsset (props c)) < length (arrays c))%nat)
    by (eapply lookup_lt_Some; exact Harr).
  unfold onRegionDelete, RM_deleteRegionById, deleteRegionFromAsset, bind,
    get, readArray, modify. simpl. rewrite Harr. simpl.
  rewrite (Array_findIndexE_absent _ _ _ _ Hall Hid). simpl.
  rewrite Array_splice1_last.
  rewrite list_lookup_insert_eq by exact Hlt. simpl.
  destruct (removelast (items arr)) as [|r rs] eqn:Hrest; simpl;
    (eexists _, {| items := _; minus1 := minus1 arr |};
     split; [reflexivity|]); simpl;
    (split; [|split; reflexivity]);
    (rewrite lookup_app_l by (rewrite length_insert; exact Hlt));
    apply list_lookup_insert_eq; exact Hlt.
Qed.

(** X10: when the asset has a region with the moved id, [onRegionMove]
    returns and overwrites the points of the first such region with the
    scaled points, and nothing else: the region keeps its id, type, tags and
    bounding box, every other region object and the asset's array are as
    they were, the selection becomes a new array holding that region, and
    the host is notified once. *)
Theorem onRegionMove_moves_points (id : string) (regionData : RegionData)
    (c : Canvas) (arr : RegionArray) (l1 l2 : list ref) (x : loc)
    (o : IRegion) :
  arrays c !! regions (selectedAsset (props c)) = Some arr →
  items arr = l1 ++ Some x :: l2 →
  all_regions (regionObjects c) l1 →
  (id ∉ ids_of (regionObjects c) l1) →
  regionObjects c !! x = Some o → region_id o = id →
  ∃ c' sel sarr,
    onRegionMove id regionData c = Return tt c'
    ∧ regionObjects c'
      = <[x := set_points
                 (rd_points (scaleRegionToSourceSize regionData)) o]>
          (regionObjects c)
    ∧ arrays c' !! regions (selectedAsset (props c')) = Some arr
    ∧ props c' = props c
    ∧ selectedRegions (state c') = Some sel
    ∧ arrays c !! sel = None
    ∧ arrays c' !! sel = Some sarr ∧ items sarr = [Some x]
    ∧ host c' = host c ++ [Some (selectedAsset (props c))]
    ∧ editor c' = editor c.
Proof.
  intros Harr Hitems Hall Hid Hx Hido.
  assert (Hlt : (regions (selectedAsset (props c)) < length (arrays c))%nat)
    by (eapply lookup_lt_Some; exact Harr).
  assert (Hget : items arr !! length l1 = Some (Some x))
    by (rewrite Hitems; apply list_lookup_middle; reflexivity).
  assert (Hidx : Array_findIndexE (hasId (regionObjects c) id) 0 (items arr)
                 = Some (Z.of_nat (length l1))).
  { rewrite Hitems.
    rewrite (Array_findIndexE_present _ _ _ _ _ _ _ Hall Hid Hx Hido).
    rewrite Z.add_0_l. reflexivity. }
  assert (Hgetz : Array_get arr (Z.of_nat (length l1)) = Some x).
  { unfold Array_get.
    destruct (Z.ltb_spec (Z.of_nat (length l1)) 0) as [?|_]; [lia|].
    rewrite Nat2Z.id, Hget. reflexivity. }
  assert (Hsame : Array_set arr (Z.of_nat (length l1)) (Some x) = arr).
  { unfold Array_set.
    destruct (Z.ltb_spec (Z.of_nat (length l1)) 0) as [?|_]; [lia|].
    rewrite Nat2Z.id, (list_insert_id (A:=ref) _ _ _ Hget).
    destruct arr; reflexivity. }
  unfold onRegionMove, bind, get, readArray. simpl. rewrite Harr. simpl.
  rewrite Hidx. simpl. rewrite Hgetz. simpl. rewrite Hx. simpl.
  rewrite Hsame.
  assert (Hkeep : <[regions (selectedAsset (props c)) := arr]> (arrays c)
                  = arrays c)
    by (apply list_insert_id; exact Harr).
  rewrite Hkeep.
  eexists _, (length (arrays c)), {| items := [Some x]; minus1 := None |}.
  split; [reflexivity|]. simpl. repeat split.
  - apply lookup_app_l_Some. exact Harr.
  - apply lookup_ge_None_2. lia.
  - rewrite lookup_app_r by lia. rewrite Nat.sub_diag. reflexivity.
Qed.

(** ** Clear-all *)

Lemma mapIds_all_regions (objs : list IRegion) (l : list ref) :
  all_regions objs l → mapIds objs l = Some (ids_of objs l).
Proof.
  induction 1 as [|r l [o Ho] _ IH]; [reflexivity|].
  unfold ids_of. simpl. rewrite Ho. simpl.
  destruct r as [x|]; [|discriminate]. simpl in *. rewrite Ho. simpl.
  rewrite IH. reflexivity.
Qed.

Lemma filter_surface_ids (id : string) (ids : list string)
    (rm : list SurfaceRegion) :
  filter (λ s, surface_id s ∉ ids) (filter (λ s, surface_id s ≠ id) rm)
  = filter (λ s, surface_id s ∉ id :: ids) rm.
Proof.
  rewrite list_filter_filter. apply list_filter_iff.
  intros s. rewrite not_elem_of_cons.
  split; intros [? ?]; split; assumption.
Qed.

Lemma filter_surface_no_ids (rm : list SurfaceRegion) :
  filter (λ s, surface_id s ∉ @nil string) rm = rm.
Proof.
  induction rm as [|s rm IH]; [reflexivity|].
  rewrite filter_cons_True by apply not_elem_of_nil. f_equal. exact IH.
Qed.

(** Deleting, one after the other, the ids of the regions of the asset. *)
Lemma delete_every_region (l : list ref) :
  ∀ (c : Canvas) (arr : RegionArray),
  arrays c !! regions (selectedAsset (props c)) = Some arr →
  items arr = l →
  all_regions (regionObjects c) l →
  ∃ c' arr',
    forEach (ids_of (regionObjects c) l) onRegionDelete c = Return tt c'
    ∧ regionObjects c' = regionObjects c
    ∧ regions (selectedAsset (props c')) = regions (selectedAsset (props c))
    ∧ arrays c' !! regions (selectedAsset (props c')) = Some arr'
    ∧ items arr' = []
    ∧ asset_state (asset (selectedAsset (props c')))
      = (if bool_decide (l = [])
         then asset_state (asset (selectedAsset (props c))) else Visited)
    ∧ length (host c') = (length (host c) + length l)%nat
    ∧ RM (editor c')
      = filter (λ s, surface_id s ∉ ids_of (regionObjects c) l)
          (RM (editor c))
    ∧ clipBoard c' = clipBoard c.
Proof.
  induction l as [|r l IH]; intros c arr Harr Hitems Hall.
  - exists c, arr. simpl. repeat split; try assumption.
    + lia.
    + symmetry. apply filter_surface_no_ids.
  - apply Forall_cons in Hall as [[o Ho] Hall].
    destruct r as [x|]; [|discriminate]. simpl in Ho.
    assert (Hlt : (regions (selectedAsset (props c)) < length (arrays c))%nat)
      by (eapply lookup_lt_Some; exact Harr).
    assert (Hnone : all_regions (regionObjects c) []) by constructor.
    assert (Hfirst : region_id o ∉ ids_of (regionObjects c) [])
      by apply not_elem_of_nil.
    destruct (onRegionDelete_present (region_id o) c arr [] l x o
                Harr Hitems Hnone Hfirst Ho eq_refl)
      as (c1 & Hrun & Hobjs & Harrs & _ & Hprops & Hhost & Hed & Hclip & _).
    simpl in Harrs, Hprops.
    assert (Hregions : regions (selectedAsset (props c1))
                       = regions (selectedAsset (props c))).
    { rewrite Hprops. destruct (bool_decide _); reflexivity. }
    assert (Harr1 : arrays c1 !! regions (selectedAsset (props c1))
                    = Some {| items := l; minus1 := minus1 arr |}).
    { rewrite Hregions, Harrs.
      rewrite lookup_app_l by (rewrite length_insert; exact Hlt).
      apply list_lookup_insert_eq. exact Hlt. }
    rewrite <- Hobjs in Hall.
    destruct (IH c1 _ Harr1 eq_refl Hall)
      as (c' & arr' & Hrun' & Hobjs' & Hregions' & Harr' & Hitems' & Hstate'
          & Hhost' & Hrm' & Hclip').
    exists c', arr'.
    unfold ids_of. simpl. rewrite Ho. simpl. unfold bind. rewrite Hrun.
    rewrite Hobjs in Hrun'.
    split; [exact Hrun'|]. repeat split.
    + congruence.
    + congruence.
    + exact Harr'.
    + exact Hitems'.
    + rewrite Hstate', Hprops.
      destruct l; simpl; reflexivity.
    + rewrite Hhost', Hhost, length_app. simpl. lia.
    + rewrite Hrm', Hed, Hobjs. simpl. apply filter_surface_ids.
    + congruence.
Qed.

(** X11: on an asset whose array holds region objects, [clearRegions]
    returns with the asset emptied, whatever ids the regions carry (equal
    ids included); a non-empty asset is left [Visited], the host has been
    notified once per region, the surface has lost every region drawn under
    one of the asset's ids, and region objects and clipboard are as they
    were. *)
Theorem clearRegions_empties (c : Canvas) (arr : RegionArray) :
  arrays c !! regions (selectedAsset (props c)) = Some arr →
  all_regions (regionObjects c) (items arr) →
  ∃ c' arr',
    clearRegions c = Return tt c'
    ∧ arrays c' !! regions (selectedAsset (props c')) = Some arr'
    ∧ items arr' = []
    ∧ asset_state (asset (selectedAsset (props c')))
      = (if bool_decide (items arr = [])
         then asset_state (asset (selectedAsset (props c))) else Visited)
    ∧ length (host c') = (length (host c) + length (items arr))%nat
    ∧ RM (editor c')
      = filter (λ s, surface_id s ∉ ids_of (regionObjects c) (items arr))
          (RM (editor c))
    ∧ regionObjects c' = regionObjects c
    ∧ clipBoard c' = clipBoard c.
Proof.
  intros Harr Hall.
  destruct (delete_every_region (items arr) c arr Harr eq_refl Hall)
    as (c' & arr' & Hrun & Hobjs & _ & Harr' & Hitems' & Hstate & Hhost
        & Hrm & Hclip).
  exists c', arr'.
  unfold clearRegions, bind, get, readArray. simpl. rewrite Harr. simpl.
  rewrite (mapIds_all_regions _ _ Hall). simpl.
  repeat split; assumption.
Qed.

(** ** Cut *)

Lemma forOfFrom_step (n : nat) (a : loc) (i : nat)
    (body : ref → Handler unit) (c : Canvas) (arr : RegionArray) :
  arrays c !! a = Some arr →
  forOfFrom (S n) a i body c
  = match items arr !! i with
    | None => Return tt c
    | Some x => (body x >> forOfFrom n a (S i) body) c
    end.
Proof.
  intros Harr. simpl. unfold bind at 1, readArray. rewrite Harr.
  destruct (items arr !! i); reflexivity.
Qed.

Lemma delete_dereferenced (x : loc) (o : IRegion) (c : Canvas) :
  regionObjects c !! x = Some o →
  (let! r := deref (Some x) in onRegionDelete (region_id r)) c
  = onRegionDelete (region_id o) c.
Proof. intros Hx. unfold bind at 1, deref. rewrite Hx. reflexivity. Qed.

Lemma ids_of_app (objs : list IRegion) (l1 l2 : list ref) :
  ids_of objs (l1 ++ l2) = ids_of objs l1 ++ ids_of objs l2.
Proof. unfold ids_of. apply omap_app. Qed.

Lemma ids_of_cons (objs : list IRegion) (x : loc) (o : IRegion)
    (l : list ref) :
  objs !! x = Some o → ids_of objs (Some x :: l) = region_id o :: ids_of objs l.
Proof. intros Hx. unfold ids_of. simpl. rewrite Hx. reflexivity. Qed.

(** The loop of [cutRegions] when the selection is the asset's own array:
    [kept] are the regions the iterator has passed, [rest] those ahead. *)
Lemma cut_own_array_loop (n : nat) :
  ∀ (kept rest : list ref) (c : Canvas) (arr : RegionArray),
  arrays c !! regions (selectedAsset (props c)) = Some arr →
  items arr = kept ++ rest →
  all_regions (regionObjects c) (kept ++ rest) →
  NoDup (ids_of (regionObjects c) (kept ++ rest)) →
  (length rest ≤ n)%nat →
  ∃ c' arr',
    forOfFrom n (regions (selectedAsset (props c))) (length kept)
      (λ region, let! r := deref region in onRegionDelete (region_id r)) c
    = Return tt c'
    ∧ regions (selectedAsset (props c')) = regions (selectedAsset (props c))
    ∧ arrays c' !! regions (selectedAsset (props c')) = Some arr'
    ∧ items arr' = kept ++ odds rest
    ∧ regionObjects c' = regionObjects c
    ∧ clipBoard c' = clipBoard c.
Proof.
  induction n as [|n IH]; intros kept rest c arr Harr Hitems Hall Hnd Hn.
  - destruct rest; [|simpl in Hn; lia].
    exists c, arr. repeat split; assumption.
  - rewrite (forOfFrom_step _ _ _ _ _ _ Harr), Hitems.
    destruct rest as [|r rest'].
    + rewrite lookup_ge_None_2 by (rewrite app_nil_r; lia).
      exists c, arr. repeat split; assumption.
    + rewrite list_lookup_middle by reflexivity.
      apply Forall_app in Hall as [Hkept Hrest].
      apply Forall_cons in Hrest as [[o Ho] Hrest'].
      destruct r as [x|]; [|discriminate]. simpl in Ho.
      rewrite ids_of_app, (ids_of_cons _ _ _ _ Ho) in Hnd.
      apply NoDup_app in Hnd as (Hndk & Hdisj & Hndr).
      apply NoDup_cons in Hndr as [Hxr Hndr].
      assert (Hfirst : region_id o ∉ ids_of (regionObjects c) kept).
      { intros Hin. apply (Hdisj _ Hin). left. }
      assert (Hlt : (regions (selectedAsset (props c))
                     < length (arrays c))%nat)
        by (eapply lookup_lt_Some; exact Harr).
      destruct (onRegionDelete_present (region_id o) c arr kept rest' x o
                  Harr Hitems Hkept Hfirst Ho eq_refl)
        as (c1 & Hrun & Hobjs & Harrs & _ & Hprops & _ & _ & Hclip & _).
      assert (Hregions : regions (selectedAsset (props c1))
                         = regions (selectedAsset (props c))).
      { rewrite Hprops. destruct (bool_decide _); reflexivity. }
      assert (Harr1 : arrays c1 !! regions (selectedAsset (props c1))
                      = Some {| items := kept ++ rest';
                                minus1 := minus1 arr |}).
      { rewrite Hregions, Harrs.
        rewrite lookup_app_l by (rewrite length_insert; exact Hlt).
        apply list_lookup_insert_eq. exact Hlt. }
      unfold bind at 1. rewrite (delete_dereferenced _ _ _ Ho), Hrun.
      rewrite <- Hregions.
      destruct rest' as [|y rest''].
      * exists c1, {| items := kept ++ []; minus1 := minus1 arr |}.
        split; [|repeat split; assumption].
        destruct n; [reflexivity|].
        rewrite (forOfFrom_step _ _ _ _ _ _ Harr1). simpl.
        rewrite lookup_ge_None_2 by (rewrite app_nil_r; lia). reflexivity.
      * assert (Hsplit : kept ++ y :: rest'' = (kept ++ [y]) ++ rest'')
          by (rewrite <- (assoc_L (++)); reflexivity).
        destruct (IH (kept ++ [y]) rest'' c1
                    {| items := kept ++ y :: rest''; minus1 := minus1 arr |}
                    Harr1 Hsplit)
          as (c' & arr' & Hrun' & Hregions' & Harr' & Hitems' & Hobjs'
              & Hclip').
        -- rewrite Hobjs, <- Hsplit. apply Forall_app. split; assumption.
        -- rewrite Hobjs, <- Hsplit, ids_of_app. apply NoDup_app.
           split; [exact Hndk|]. split; [|exact Hndr].
           intros t Ht Ht'. apply (Hdisj _ Ht). right. exact Ht'.
        -- simpl in Hn. lia.
        -- exists c', arr'.
           rewrite length_app, Nat.add_1_r in Hrun'.
           split; [exact Hrun'|]. repeat split; try congruence.
           rewrite Hitems', <- (assoc_L (++)). reflexivity.
Qed.

(** X13: when the selection is the asset's own array (as after
    select-all) and the regions have distinct ids, [cutRegions] returns
    having removed only every other region: the loop deletes from the array
    it iterates over, so the first, third, fifth, ... regions go and the
    second, fourth, ... stay.  The clipboard holds a snapshot of all of
    them. *)
Theorem cutRegions_own_array (c : Canvas) (arr : RegionArray) :
  selectedRegions (state c) = Some (regions (selectedAsset (props c))) →
  arrays c !! regions (selectedAsset (props c)) = Some arr →
  all_regions (regionObjects c) (items arr) →
  NoDup (ids_of (regionObjects c) (items arr)) →
  ∃ c' arr',
    cutRegions c = Return tt c'
    ∧ arrays c' !! regions (selectedAsset (props c')) = Some arr'
    ∧ items arr' = odds (items arr)
    ∧ regionObjects c' = regionObjects c
    ∧ clipBoard c' = Some (region_at (regionObjects c) <$> items arr).
Proof.
  intros Hsel Harr Hall Hnd.
  pose (c0 := with_clipBoard
                (Some (region_at (regionObjects c) <$> items arr)) c).
  destruct (cut_own_array_loop (length (items arr)) [] (items arr) c0 arr
              Harr eq_refl Hall Hnd (Nat.le_refl _))
    as (c' & arr' & Hrun & _ & Harr' & Hitems' & Hobjs & Hclip).
  exists c', arr'.
  split; [|repeat split; assumption].
  unfold cutRegions, copyRegions, clipBoard_set, bind, get, readArray, forOf.
  simpl. rewrite Hsel. simpl. rewrite Harr. simpl. rewrite Hsel. simpl.
  unfold bind, readArray. simpl. rewrite Harr.
  exact Hrun.
Qed.

Lemma filter_not_in_nil (l : list string) :
  filter (λ t, t ∉ @nil string) l = l.
Proof.
  induction l as [|t l IH]; [reflexivity|].
  rewrite filter_cons_True by apply not_elem_of_nil. f_equal. exact IH.
Qed.

Lemma filter_ne_absent (id : string) (l : list string) :
  id ∉ l → filter (λ t, t ≠ id) l = l.
Proof.
  induction l as [|t l IH]; intros Hid; [reflexivity|].
  apply not_elem_of_cons in Hid as [Hne Hid].
  rewrite filter_cons_True by congruence. f_equal. apply IH. exact Hid.
Qed.

Lemma filter_not_in_cons (id : string) (ids l : list string) :
  filter (λ t, t ∉ ids) (filter (λ t, t ≠ id) l)
  = filter (λ t, t ∉ id :: ids) l.
Proof.
  rewrite list_filter_filter. apply list_filter_iff.
  intros t. rewrite not_elem_of_cons.
  split; intros [? ?]; split; assumption.
Qed.

(** Taking one region out of an array of regions with distinct ids. *)
Lemma ids_of_removed (objs : list IRegion) (l1 l2 : list ref) (x : loc)
    (o : IRegion) :
  objs !! x = Some o →
  NoDup (ids_of objs (l1 ++ Some x :: l2)) →
  ids_of objs (l1 ++ l2)
  = filter (λ t, t ≠ region_id o) (ids_of objs (l1 ++ Some x :: l2))
  ∧ NoDup (ids_of objs (l1 ++ l2)).
Proof.
  intros Hx Hnd. rewrite !ids_of_app, (ids_of_cons _ _ _ _ Hx) in *.
  apply NoDup_app in Hnd as (Hnd1 & Hdisj & Hnd2).
  apply NoDup_cons in Hnd2 as [Hx2 Hnd2]. split.
  - rewrite filter_app, filter_cons_False by (intros H; exact (H eq_refl)).
    rewrite !filter_ne_absent; [reflexivity | exact Hx2 |].
    intros Hin. apply (Hdisj _ Hin). left.
  - apply NoDup_app. split; [exact Hnd1|]. split; [|exact Hnd2].
    intros t Ht Ht'. apply (Hdisj _ Ht). right. exact Ht'.
Qed.

(** The loop of [cutRegions] over a selection that is an array of its own:
    the regions from position [i] on are still to be deleted. *)
Lemma cut_selection_loop (n : nat) :
  ∀ (i : nat) (c : Canvas) (arr sarr : RegionArray) (sel : loc),
  sel ≠ regions (selectedAsset (props c)) →
  arrays c !! regions (selectedAsset (props c)) = Some arr →
  arrays c !! sel = Some sarr →
  all_regions (regionObjects c) (items arr) →
  all_regions (regionObjects c) (items sarr) →
  NoDup (ids_of (regionObjects c) (items arr)) →
  NoDup (ids_of (regionObjects c) (drop i (items sarr))) →
  (∀ id, id ∈ ids_of (regionObjects c) (drop i (items sarr)) →
         id ∈ ids_of (regionObjects c) (items arr)) →
  (length (items sarr) ≤ n + i)%nat →
  ∃ c' arr',
    forOfFrom n sel i
      (λ region, let! r := deref region in onRegionDelete (region_id r)) c
    = Return tt c'
    ∧ regions (selectedAsset (props c')) = regions (selectedAsset (props c))
    ∧ arrays c' !! regions (selectedAsset (props c')) = Some arr'
    ∧ items arr' `sublist_of` items arr
    ∧ ids_of (regionObjects c) (items arr')
      = filter (λ t, t ∉ ids_of (regionObjects c) (drop i (items sarr)))
          (ids_of (regionObjects c) (items arr))
    ∧ regionObjects c' = regionObjects c
    ∧ clipBoard c' = clipBoard c.
Proof.
  induction n as [|n IH];
    intros i c arr sarr sel Hne Harr Hsarr Hall Hsall Hnd Hsnd Hsub Hn.
  - exists c, arr. rewrite drop_ge by lia. simpl.
    repeat split; try assumption; [reflexivity|].
    symmetry. apply filter_not_in_nil.
  - rewrite (forOfFrom_step _ _ _ _ _ _ Hsarr).
    destruct (items sarr !! i) as [r|] eqn:Hr.
    2:{ exists c, arr. rewrite drop_ge by (apply lookup_ge_None; exact Hr).
        simpl. repeat split; try assumption; [reflexivity|].
        symmetry. apply filter_not_in_nil. }
    rewrite (drop_S _ _ _ Hr) in Hsnd, Hsub |- *.
    assert (Hro : is_Some (region_at (regionObjects c) r)).
    { pose proof Hsall as Hs. unfold all_regions in Hs.
      rewrite Forall_forall in Hs. apply Hs.
      apply list_elem_of_lookup. exists i. exact Hr. }
    destruct Hro as [o Ho]. destruct r as [x|]; [|discriminate]. simpl in Ho.
    assert (Hc : ids_of (regionObjects c)
                   (@cons ref (Some x) (drop (S i) (items sarr)))
                 = region_id o
                   :: ids_of (regionObjects c) (drop (S i) (items sarr)))
      by (apply ids_of_cons; exact Ho).
    rewrite Hc in Hsnd, Hsub |- *. clear Hc.
    apply NoDup_cons in Hsnd as [Hxrest Hsnd].
    assert (Hin : region_id o ∈ ids_of (regionObjects c) (items arr))
      by (apply Hsub; left).
    destruct (Array_findE_present _ _ _ Hall Hin)
      as (l1 & y & l2 & o' & Hitems & Hy & Hido & Hl1 & _).
    assert (Hall1 : all_regions (regionObjects c) l1).
    { rewrite Hitems in Hall. apply Forall_app in Hall as [H1 _]. exact H1. }
    assert (Hlt : (regions (selectedAsset (props c)) < length (arrays c))%nat)
      by (eapply lookup_lt_Some; exact Harr).
    destruct (onRegionDelete_present (region_id o) c arr l1 l2 y o'
                Harr Hitems Hall1 Hl1 Hy Hido)
      as (c1 & Hrun & Hobjs & Harrs & _ & Hprops & _ & _ & Hclip & _).
    assert (Hregions : regions (selectedAsset (props c1))
                       = regions (selectedAsset (props c))).
    { rewrite Hprops. destruct (bool_decide _); reflexivity. }
    assert (Harr1 : arrays c1 !! regions (selectedAsset (props c1))
                    = Some {| items := l1 ++ l2; minus1 := minus1 arr |}).
    { rewrite Hregions, Harrs.
      rewrite lookup_app_l by (rewrite length_insert; exact Hlt).
      apply list_lookup_insert_eq. exact Hlt. }
    assert (Hsarr1 : arrays c1 !! sel = Some sarr).
    { rewrite Harrs. apply lookup_app_l_Some.
      rewrite list_lookup_insert_ne by congruence. exact Hsarr. }
    rewrite Hitems in Hnd, Hall, Hsub.
    destruct (ids_of_removed _ l1 l2 y o' Hy Hnd) as [Hids Hnd1].
    unfold bind at 1. rewrite (delete_dereferenced _ _ _ Ho), Hrun.
    destruct (IH (S i) c1 {| items := l1 ++ l2; minus1 := minus1 arr |}
                sarr sel)
      as (c' & arr' & Hrun' & Hregions' & Harr' & Hsubl & Hids' & Hobjs'
          & Hclip').
    + congruence.
    + exact Harr1.
    + exact Hsarr1.
    + rewrite Hobjs. simpl.
      apply Forall_app in Hall as [H1 H2]. apply Forall_cons in H2 as [_ H2].
      apply Forall_app. split; assumption.
    + rewrite Hobjs. exact Hsall.
    + rewrite Hobjs. exact Hnd1.
    + rewrite Hobjs. exact Hsnd.
    + rewrite Hobjs. simpl. intros id Hid.
      refine (eq_ind_r (λ L, id ∈ L) _ Hids).
      apply list_elem_of_filter. split.
      * intros ->. rewrite Hido in Hid. contradiction.
      * apply Hsub. right. exact Hid.
    + lia.
    + exists c', arr'. split; [exact Hrun'|].
      rewrite Hobjs in Hids'. simpl in Hids', Hsubl.
      repeat split; try congruence.
      * rewrite Hitems. etransitivity; [exact Hsubl|].
        apply sublist_app; [reflexivity|]. apply sublist_cons. reflexivity.
      * rewrite <- filter_not_in_cons, <- Hido.
        etransitivity; [exact Hids'|]. f_equal.
        etransitivity; [exact Hids|]. rewrite Hitems. reflexivity.
Qed.

(** X12: when the selection is an array of its own holding regions of the
    asset, selection and asset both with distinct ids, [cutRegions] returns
    having stored a snapshot of the selection in the clipboard and removed
    exactly the selected regions from the asset: what is left are the other
    regions, in their order. *)
Theorem cutRegions_removes_selected (c : Canvas) (arr sarr : RegionArray)
    (sel : loc) :
  selectedRegions (state c) = Some sel →
  sel ≠ regions (selectedAsset (props c)) →
  arrays c !! regions (selectedAsset (props c)) = Some arr →
  arrays c !! sel = Some sarr →
  all_regions (regionObjects c) (items arr) →
  all_regions (regionObjects c) (items sarr) →
  NoDup (ids_of (regionObjects c) (items arr)) →
  NoDup (ids_of (regionObjects c) (items sarr)) →
  (∀ id, id ∈ ids_of (regionObjects c) (items sarr) →
         id ∈ ids_of (regionObjects c) (items arr)) →
  ∃ c' arr',
    cutRegions c = Return tt c'
    ∧ arrays c' !! regions (selectedAsset (props c')) = Some arr'
    ∧ items arr' `sublist_of` items arr
    ∧ ids_of (regionObjects c) (items arr')
      = filter (λ t, t ∉ ids_of (regionObjects c) (items sarr))
          (ids_of (regionObjects c) (items arr))
    ∧ regionObjects c' = regionObjects c
    ∧ clipBoard c' = Some (region_at (regionObjects c) <$> items sarr).
Proof.
  intros Hsel Hne Harr Hsarr Hall Hsall Hnd Hsnd Hsub.
  pose (c0 := with_clipBoard
                (Some (region_at (regionObjects c) <$> items sarr)) c).
  destruct (cut_selection_loop (length (items sarr)) O c0 arr sarr sel
              Hne Harr Hsarr Hall Hsall Hnd Hsnd Hsub)
    as (c' & arr' & Hrun & _ & Harr' & Hsubl & Hids & Hobjs & Hclip);
    [lia|].
  exists c', arr'.
  split; [|repeat split; assumption].
  unfold cutRegions, copyRegions, clipBoard_set, bind, get, readArray, forOf.
  simpl. rewrite Hsel. simpl. rewrite Hsarr. simpl. rewrite Hsel. simpl.
  unfold bind, readArray. simpl. rewrite Hsarr.
  exact Hrun.
Qed.

(** ** Select-all, clicks on a missing region, prop changes, redraw *)

(** X14: after [selectAllRegions], whether [applyTags] completes or
    throws, the selection is the asset's own array of regions (the same
    array object, not a copy), and arrays, props, surface and clipboard are
    as they were. *)
Theorem selectAllRegions_selects_array (c : Canvas) :
  selectedRegions (state (after (selectAllRegions c)))
  = Some (regions (selectedAsset (props c)))
  ∧ arrays (after (selectAllRegions c)) = arrays c
  ∧ props (after (selectAllRegions c)) = props c
  ∧ editor (after (selectAllRegions c)) = editor c
  ∧ clipBoard (after (selectAllRegions c)) = clipBoard c.
Proof.
  unfold selectAllRegions. rewrite after_bind. simpl. rewrite after_bind.
  simpl.
  match goal with |- context [after (applyTags ?c1)] =>
    destruct (keeps_applyTags c1) as (Ha & Hp & Hs & He & Hc) end.
  rewrite Ha, Hp, Hs, He, Hc. repeat split.
Qed.

(** X15: a click on an id that no region of the asset has is not a no-op.
    In single-select mode the handler returns and the selection becomes a
    new array holding [undefined].  In multi-select mode it throws, leaving
    the component as it was, when a region is selected; when the selection
    is empty it returns having pushed [undefined] onto the selection
    array. *)
Theorem onRegionSelected_absent (id : string) (c : Canvas)
    (arr : RegionArray) :
  arrays c !! regions (selectedAsset (props c)) = Some arr →
  all_regions (regionObjects c) (items arr) →
  (id ∉ ids_of (regionObjects c) (items arr)) →
  (multiSelect (state c) = false →
   onRegionSelected id c
   = Return tt
       (with_state {| selectedRegions := Some (length (arrays c));
                      canvasEnabled := canvasEnabled (state c);
                      multiSelect := false |}
          (with_arrays
             (arrays c ++ [{| items := [None]; minus1 := None |}]) c)))
  ∧ (multiSelect (state c) = true →
     ∀ sel sarr r rs,
       selectedRegions (state c) = Some sel →
       arrays c !! sel = Some sarr →
       items sarr = r :: rs →
       is_Some (region_at (regionObjects c) r) →
       onRegionSelected id c = Throw c)
  ∧ (multiSelect (state c) = true →
     ∀ sel sarr,
       selectedRegions (state c) = Some sel →
       arrays c !! sel = Some sarr →
       items sarr = [] →
       onRegionSelected id c
       = Return tt
           (with_state {| selectedRegions := Some sel;
                          canvasEnabled := canvasEnabled (state c);
                          multiSelect := true |}
              (with_arrays
                 (<[sel := {| items := [None]; minus1 := minus1 sarr |}]>
                    (arrays c)) c))).
Proof.
  intros Harr Hall Hid.
  assert (Hfind : Array_findE (hasId (regionObjects c) id) (items arr)
                  = Some None)
    by (apply Array_findE_absent; assumption).
  split; [|split].
  - intros Hmulti.
    unfold onRegionSelected, bind, get, readArray. simpl.
    rewrite Harr. simpl. rewrite Hfind. simpl. rewrite Hmulti.
    unfold newArray, setSelectedRegions, modify. simpl. rewrite Hmulti.
    reflexivity.
  - intros Hmulti sel sarr r rs Hsel Hsarr Hitems [o Ho].
    unfold onRegionSelected, bind, get, readArray. simpl.
    rewrite Harr. simpl. rewrite Hfind. simpl. rewrite Hmulti, Hsel. simpl.
    rewrite Hsarr. simpl. rewrite Hitems. simpl.
    unfold sameId at 1. unfold region_at in Ho. rewrite Ho. reflexivity.
  - intros Hmulti sel sarr Hsel Hsarr Hitems.
    unfold onRegionSelected, bind, get, readArray. simpl.
    rewrite Harr. simpl. rewrite Hfind. simpl. rewrite Hmulti, Hsel. simpl.
    rewrite Hsarr. simpl. rewrite Hitems. simpl.
    unfold writeArray, setSelectedRegions, modify. simpl. rewrite Hmulti.
    reflexivity.
Qed.

(** X16: when the asset id and the array of armed tags are those of the
    previous props, [componentDidUpdate] only forwards a changed selection
    mode to the surface: regions, selection, drawn regions and host are
    untouched, and with the mode unchanged too the component is left as it
    is. *)
Theorem componentDidUpdate_same_asset (prevProps : ICanvasProps)
    (c : Canvas) :
  asset_id (asset (selectedAsset (props c)))
  = asset_id (asset (selectedAsset prevProps)) →
  tagsChanged (selectedTags (props c)) (selectedTags prevProps) = false →
  componentDidUpdate prevProps c
  = Return tt
      (if bool_decide (selectionMode (props c) ≠ selectionMode prevProps)
       then with_editor {| RM := RM (editor c);
                           AS := selectionMode (props c) |} c
       else c).
Proof.
  intros Hid Htags. unfold componentDidUpdate, bind, get. simpl.
  rewrite (bool_decide_eq_false_2 _ (λ H, H Hid)). simpl.
  rewrite Htags.
  destruct (bool_decide (selectionMode (props c) ≠ selectionMode prevProps));
    reflexivity.
Qed.

(** X17: [updateRegions] never draws a region and never changes the
    selection.  On an asset without regions it returns at once; on an asset
    with regions it throws in the first pass of its loop, at the call of
    [getTagsDescriptor] with the region alone, before [RM.addRegion] is
    called.  Either way the component is left as it was. *)
Theorem updateRegions_draws_nothing (c : Canvas) (arr : RegionArray) :
  arrays c !! regions (selectedAsset (props c)) = Some arr →
  all_regions (regionObjects c) (items arr) →
  updateRegions c = (if bool_decide (items arr = []) then Return tt c
                     else Throw c).
Proof.
  intros Harr Hall.
  unfold updateRegions, bind, get, readArray. simpl.
  rewrite Harr. simpl.
  destruct (items arr) as [|r rs] eqn:Hitems; [reflexivity|]. simpl.
  apply Forall_cons in Hall as [[o Ho] _].
  destruct r as [x|]; [|discriminate]. simpl in Ho.
  unfold bind, deref. rewrite Ho.
  rewrite getTagsDescriptor_undefined_region. reflexivity.
Qed.

(** ** Adding regions *)

(** X18: [addRegionToAsset] followed by [deleteRegionFromAsset] of the id
    just added, an id no other region of the asset has, gives back the
    asset's array as it was; the asset ends [Tagged] when it has regions
    and [Visited] when it has none, whatever its state was before. *)
Theorem add_then_delete_restores (x : loc) (o : IRegion) (c : Canvas)
    (arr : RegionArray) :
  arrays c !! regions (selectedAsset (props c)) = Some arr →
  all_regions (regionObjects c) (items arr) →
  regionObjects c !! x = Some o →
  (region_id o ∉ ids_of (regionObjects c) (items arr)) →
  ∃ md c1 md' c2,
    addRegionToAsset x c = Return md c1
    ∧ deleteRegionFromAsset (region_id o) c1 = Return md' c2
    ∧ arrays c2 = arrays c
    ∧ regionObjects c2 = regionObjects c
    ∧ asset_state (asset (selectedAsset (props c2)))
      = (if bool_decide (items arr = []) then Visited else Tagged).
Proof.
  intros Harr Hall Hx Hid.
  assert (Hlt : (regions (selectedAsset (props c)) < length (arrays c))%nat)
    by (eapply lookup_lt_Some; exact Harr).
  assert (Hidx : Array_findIndexE (hasId (regionObjects c) (region_id o)) 0
                   (Array_push (items arr) (Some x))
                 = Some (Z.of_nat (length (items arr)))).
  { unfold Array_push.
    rewrite (Array_findIndexE_present _ _ _ _ _ _ _ Hall Hid Hx eq_refl).
    rewrite Z.add_0_l. reflexivity. }
  assert (Hsplice : Array_splice1 (Z.of_nat (length (items arr)))
                      (Array_push (items arr) (Some x))
                    = items arr).
  { unfold Array_push. rewrite Array_splice1_at. apply app_nil_r. }
  assert (Hadd : ∃ md c1,
    addRegionToAsset x c = Return md c1
    ∧ regionObjects c1 = regionObjects c
    ∧ regions (selectedAsset (props c1)) = regions (selectedAsset (props c))
    ∧ arrays c1
      = <[regions (selectedAsset (props c))
          := {| items := Array_push (items arr) (Some x);
                minus1 := minus1 arr |}]> (arrays c)).
  { unfold addRegionToAsset, bind, get, readArray, writeArray, modify. simpl.
    rewrite Harr. simpl. rewrite list_lookup_insert_eq by exact Hlt. simpl.
    rewrite bool_decide_eq_true_2
      by (unfold Array_push; rewrite length_app; simpl; lia).
    eexists _, _. split; [reflexivity|]. repeat split. }
  destruct Hadd as (md & c1 & Hrun1 & Hobjs1 & Hregions1 & Harrs1).
  exists md, c1.
  assert (Hdel : ∃ md' c2,
    deleteRegionFromAsset (region_id o) c1 = Return md' c2
    ∧ arrays c2 = arrays c
    ∧ regionObjects c2 = regionObjects c
    ∧ asset_state (asset (selectedAsset (props c2)))
      = (if bool_decide (items arr = []) then Visited
         else asset_state (asset (selectedAsset (props c1))))).
  { unfold deleteRegionFromAsset, bind, get, readArray, writeArray, modify.
    simpl. rewrite Hregions1, Harrs1, Hobjs1.
    rewrite list_lookup_insert_eq by exact Hlt. simpl.
    rewrite Hidx. simpl. rewrite Hsplice, Harrs1.
    rewrite list_insert_insert_eq.
    rewrite list_lookup_insert_eq by exact Hlt. simpl.
    replace {| items := items arr; minus1 := minus1 arr |} with arr
      by (destruct arr; reflexivity).
    rewrite (list_insert_id (arrays c) _ _ Harr).
    destruct (items arr) eqn:Hitems; simpl;
      (eexists _, _; split; [reflexivity|]); simpl; repeat split;
      assumption. }
  destruct Hdel as (md' & c2 & Hrun2 & Harrs2 & Hobjs2 & Hstate2).
  exists md', c2. repeat split; try assumption.
  rewrite Hstate2. destruct (bool_decide _); [reflexivity|].
  revert Hrun1. unfold addRegionToAsset, bind, get, readArray, writeArray,
    modify. simpl.
  rewrite Harr. simpl. rewrite list_lookup_insert_eq by exact Hlt. simpl.
  rewrite bool_decide_eq_true_2
    by (unfold Array_push; rewrite length_app; simpl; lia).
  simpl. intros [= _ <-]. reflexivity.
Qed.

(** X19: [onSelectionEnd] never records the region that was drawn.  It
    takes an id from the generator, draws the region on the surface under
    that id, with the committed geometry and no tag descriptor, and then
    throws at the call of [CanvasHelpers.getRegion], which canvasHelpers.ts
    does not define.  The asset's regions and state, the region objects,
    the selection and the clipboard are as they were, and the host is not
    notified. *)
Theorem onSelectionEnd_draws_then_throws (commit : RegionData) (c : Canvas) :
  returned (onSelectionEnd commit c) = false
  ∧ RM (editor (after (onSelectionEnd commit c)))
    = RM (editor c)
      ++ [{| surface_id := generate (shortid c); surface_data := commit;
             surface_tags := None |}]
  ∧ shortid (after (onSelectionEnd commit c)) = S (shortid c)
  ∧ arrays (after (onSelectionEnd commit c)) = arrays c
  ∧ regionObjects (after (onSelectionEnd commit c)) = regionObjects c
  ∧ props (after (onSelectionEnd commit c)) = props c
  ∧ state (after (onSelectionEnd commit c)) = state c
  ∧ clipBoard (after (onSelectionEnd commit c)) = clipBoard c
  ∧ host (after (onSelectionEnd commit c)) = host c.
Proof.
  rewrite onSelectionEnd_throws. simpl. repeat split.
Qed.

(** X20: [pasteRegions] does nothing when the clipboard holds no snapshot,
    and with a snapshot, the empty one included, it throws at the call of
    [CanvasHelpers.duplicateAndTransformRegions] and leaves the component
    as it was.  So a paste that follows a copy of a defined selection
    always throws. *)
Theorem pasteRegions_throws_on_snapshot (c : Canvas) :
  (clipBoard c = None → pasteRegions c = Return tt c)
  ∧ (∀ snapshot, clipBoard c = Some snapshot → pasteRegions c = Throw c)
  ∧ (∀ sel sarr,
       selectedRegions (state c) = Some sel → arrays c !! sel = Some sarr →
       ∃ c1, copyRegions c = Return tt c1
             ∧ arrays c1 = arrays c ∧ props c1 = props c
             ∧ pasteRegions c1 = Throw c1).
Proof.
  split; [|split].
  - intros Hclip. rewrite pasteRegions_outcome, Hclip. reflexivity.
  - intros snapshot Hclip. rewrite pasteRegions_outcome, Hclip. reflexivity.
  - intros sel sarr Hsel Hsarr.
    unfold copyRegions, clipBoard_set, bind, get, readArray, modify. simpl.
    rewrite Hsel. simpl. rewrite Hsarr. simpl.
    eexists. split; [reflexivity|]. repeat split.
Qed.

(** ** Multi-select clicks *)

(** X21: in multi-select mode a click never deselects: a click on a
    region of the asset whose id a selected region already has returns
    and leaves the component exactly as it was. *)
Theorem onRegionSelected_multi_keeps (id : string) (c : Canvas)
    (arr sarr : RegionArray) (sel : loc) :
  arrays c !! regions (selectedAsset (props c)) = Some arr →
  all_regions (regionObjects c) (items arr) →
  selectedRegions (state c) = Some sel →
  arrays c !! sel = Some sarr →
  all_regions (regionObjects c) (items sarr) →
  multiSelect (state c) = true →
  id ∈ ids_of (regionObjects c) (items arr) →
  id ∈ ids_of (regionObjects c) (items sarr) →
  onRegionSelected id c = Return tt c.
Proof.
  intros Harr Hall Hsel Hsarr Hsall Hmulti Hid Hin.
  destruct (Array_findE_present _ _ _ Hall Hid)
    as (l1 & x & l2 & o & _ & Hx & Hido & _ & Hfind).
  destruct (Array_findE_present _ _ _ Hsall Hin)
    as (? & y & ? & ? & _ & _ & _ & _ & Hfound).
  unfold onRegionSelected, bind, get, readArray. simpl.
  rewrite Harr. simpl. rewrite Hfind. simpl. rewrite Hmulti, Hsel. simpl.
  rewrite Hsarr. simpl.
  rewrite (Array_findE_ext _ _ _ (sameId_hasId _ _ _ (items sarr) Hx)).
  rewrite Hido, Hfound. simpl.
  unfold setSelectedRegions, modify. f_equal.
  destruct c as [objs arrs p [s e m] cb ed h n]. simpl in *.
  subst. reflexivity.
Qed.

End Canvas.

Arguments Return {number A} a c.
Arguments Throw {number A} c.

(** * The theorems at concrete components

    Coordinates are integers, the surface does not scale, [Guard.null]
    throws on [undefined] only, and the id generator numbers its ids. *)

Local Abbreviation guard_undefined :=
  (λ v : Arg, match v with ArgUndefined => true | _ => false end).
Local Abbreviation unscaled := (λ d : @RegionData Z, d).
Local Abbreviation numbered :=
  (λ n : nat, String (Ascii.ascii_of_nat (48 + n)) EmptyString).
Local Abbreviation r1 := (sample_region 0 "r1" ["cat"%string]).
Local Abbreviation r2 := (sample_region 5 "r2" []).
Local Abbreviation two_regions :=
  (sample_canvas [r1; r2] [Some 0; Some 1]%nat [] Tagged None None false).
Local Abbreviation regions_of_two :=
  ({| items := [Some 0; Some 1]%nat; minus1 := None |}).
Local Abbreviation no_selection := ({| items := @nil ref; minus1 := None |}).
Local Abbreviation a_move :=
  ({| rd_x := 1; rd_y := 1; rd_width := 2; rd_height := 2;
      rd_points := [{| px := 1; py := 1 |}]; rd_type := Some Rect |}).

Local Abbreviation copied_r1 :=
  (sample_canvas [r1] [Some O] [] Tagged None (Some [Some r1]) false).
Local Abbreviation previous_props :=
  ({| selectedAsset :=
        {| asset := {| asset_id := "asset-0"; asset_state := Visited |};
           regions := 1%nat |};
      editorMode := Rectangle; selectionMode := O; selectedTags := None |}).
Local Abbreviation clicks :=
  ([RegionSelected "r1"; ShiftKey true; RegionSelected "r2";
    RegionSelected "r1"]).

Ltac by_decide :=
  match goal with
  | |- ?P => apply (bool_decide_unpack P); vm_compute; exact I
  end.
Ltac regions_here :=
  repeat (constructor; [eexists; reflexivity|]); constructor.

Lemma toggleTag_twice_witness :
  NoDup ["cat"; "dog"]%string
  ∧ toggleTag (toggleTag ["cat"; "dog"]%string "cat") "cat"
    ≡ₚ ["cat"; "dog"]%string.
Proof.
  assert (H : NoDup ["cat"; "dog"]%string) by by_decide.
  split; [exact H | exact (proj1 (toggleTag_twice _ "cat" H))].
Defined.

Lemma addIfMissing_nonempty_present_witness :
  "cat"%string ≠ EmptyString ∧ "cat"%string ∈ ["dog"; "cat"]%string
  ∧ addIfMissing ["dog"; "cat"]%string "cat" = ["dog"; "cat"]%string.
Proof.
  assert (H1 : "cat"%string ≠ EmptyString) by discriminate.
  assert (H2 : "cat"%string ∈ ["dog"; "cat"]%string) by by_decide.
  split; [exact H1|]. split; [exact H2|].
  exact (proj1 addIfMissing_nonempty_present _ _ H1 H2).
Defined.

Lemma onRegionMove_absent_witness :
  ("stale"%string ∉ ids_of (regionObjects two_regions) [Some 0; Some 1]%nat)
  ∧ ∃ c' arr',
      onRegionMove unscaled "stale" a_move two_regions = Return tt c'
      ∧ arrays c' !! regions (selectedAsset (props c')) = Some arr'
      ∧ items arr' = [Some 0; Some 1]%nat
      ∧ regionObjects c' = [r1; r2]
      ∧ props c' = props two_regions.
Proof.
  assert (H : "stale"%string
              ∉ ids_of (regionObjects two_regions) [Some 0; Some 1]%nat)
    by by_decide.
  split; [exact H|].
  apply (onRegionMove_absent unscaled "stale" a_move two_regions
           regions_of_two).
  - reflexivity.
  - split; [regions_here | reflexivity].
  - exact H.
Defined.

Lemma asset_state_preserved_witness :
  asset_state_ok two_regions
  ∧ asset_state_ok
      (after (onSelectionEnd guard_undefined numbered unscaled a_move
                two_regions))
  ∧ asset_state_ok
      (after (pasteRegions guard_undefined unscaled two_regions))
  ∧ asset_state_ok (after (onRegionDelete "r1" two_regions)).
Proof.
  assert (H : asset_state_ok two_regions).
  { exists regions_of_two. split; [reflexivity|].
    split; [reflexivity | discriminate]. }
  split; [exact H|].
  destruct (asset_state_preserved guard_undefined numbered unscaled unscaled
              two_regions a_move "r1" O H)
    as (Hdraw & Hpaste & Hdelete & _).
  split; [exact Hdraw|]. split; [exact Hpaste | exact Hdelete].
Defined.

Lemma active_asset_change_witness :
  asset_id (asset (selectedAsset (props two_regions)))
    ≠ asset_id (asset (selectedAsset previous_props))
  ∧ RM (editor (after (componentDidUpdate guard_undefined previous_props
                         two_regions))) = [].
Proof.
  assert (H : asset_id (asset (selectedAsset (props two_regions)))
              ≠ asset_id (asset (selectedAsset previous_props)))
    by discriminate.
  split; [exact H|].
  exact (proj1 (active_asset_change guard_undefined previous_props
                  two_regions regions_of_two H eq_refl)).
Defined.

Lemma selectedRegions_distinct_witness :
  (∀ id, RegionSelected id ∈ clicks →
         id ∈ ids_of (regionObjects two_regions) (items regions_of_two))
  ∧ ∃ c' sel' sarr',
      forEach clicks fire two_regions = Return tt c'
      ∧ selectedRegions (state c') = Some sel'
      ∧ arrays c' !! sel' = Some sarr'
      ∧ all_regions (regionObjects c') (items sarr')
      ∧ NoDup (ids_of (regionObjects c') (items sarr')).
Proof.
  assert (H : ∀ id, RegionSelected id ∈ clicks →
                id ∈ ids_of (regionObjects two_regions)
                       (items regions_of_two)).
  { intros id Hin.
    repeat (apply elem_of_cons in Hin as [Heq | Hin];
            [try discriminate; injection Heq as ->; by_decide|]).
    inversion Hin. }
  split; [exact H|].
  apply (selectedRegions_distinct clicks two_regions regions_of_two
           no_selection 1%nat).
  - reflexivity.
  - regions_here.
  - reflexivity.
  - reflexivity.
  - constructor.
  - constructor.
  - exact H.
Defined.

Lemma copyRegions_stores_selection_witness :
  selectedRegions (state copied_r1) = Some 1%nat
  ∧ arrays copied_r1 !! 1%nat = Some no_selection
  ∧ clipBoard (after (copyRegions copied_r1)) = Some [].
Proof.
  split; [reflexivity|]. split; [reflexivity|].
  exact (proj2 (proj2 (copyRegions_stores_selection copied_r1))
           1%nat no_selection eq_refl eq_refl eq_refl).
Defined.

(** C4, as stated, fails: the selection is empty, the clipboard holds a
    snapshot of r1, and after [copyRegions] it holds the empty snapshot. *)
Lemma copyRegions_empty_selection_overwrites :
  selectedRegions (state copied_r1) = Some 1%nat
  ∧ items <$> arrays copied_r1 !! 1%nat = Some []
  ∧ clipBoard copied_r1 = Some [Some r1]
  ∧ clipBoard (after (copyRegions copied_r1)) = Some []
  ∧ clipBoard (after (copyRegions copied_r1)) ≠ clipBoard copied_r1.
Proof. vm_compute. repeat split. discriminate. Qed.

Local Abbreviation r3 := (sample_region 9 "r3" []).
Local Abbreviation r2_selected :=
  (sample_canvas [r1; r2] [Some 0; Some 1]%nat [Some 1%nat] Tagged None None
     false).
Local Abbreviation regions_of_three :=
  ({| items := [Some 0; Some 1; Some 2]%nat; minus1 := None |}).
Local Abbreviation all_selected :=
  (with_state {| selectedRegions := Some O; canvasEnabled := true;
                 multiSelect := false |}
     (sample_canvas [r1; r2; r3] [Some 0; Some 1; Some 2]%nat [] Tagged None
        None false)).
Local Abbreviation project_tags :=
  ([{| tag_name := "cat"; tag_color := "red" |};
    {| tag_name := "dog"; tag_color := "blue" |}]).
Local Abbreviation previous_mode :=
  ({| selectedAsset :=
        {| asset := {| asset_id := "asset-1"; asset_state := Tagged |};
           regions := O |};
      editorMode := Rectangle; selectionMode := 1%nat;
      selectedTags := None |}).

Lemma removeIfContained_removes_first_witness :
  NoDup ["dog"; "cat"]%string
  ∧ ("cat"%string ∉ removeIfContained ["dog"; "cat"]%string "cat").
Proof.
  assert (H : NoDup ["dog"; "cat"]%string) by by_decide.
  split; [exact H|].
  exact (proj2 (proj2 (removeIfContained_removes_first _ "cat")) H).
Defined.

Lemma addIfMissing_removeIfContained_witness :
  ("cat"%string ∉ ["dog"%string])
  ∧ removeIfContained (addIfMissing ["dog"%string] "cat") "cat"
    = ["dog"%string].
Proof.
  assert (H : "cat"%string ∉ ["dog"%string]) by by_decide.
  split; [exact H|].
  exact (proj1 (addIfMissing_removeIfContained _ "cat") H).
Defined.

Lemma addIfMissing_idempotent_witness :
  "cat"%string ≠ EmptyString
  ∧ addIfMissing (addIfMissing ["dog"%string] "cat") "cat"
    = addIfMissing ["dog"%string] "cat".
Proof.
  assert (H : "cat"%string ≠ EmptyString) by discriminate.
  split; [exact H|].
  exact (proj1 addIfMissing_idempotent ["dog"%string] "cat"%string H).
Defined.

Lemma addAllIfMissing_appends_witness :
  NoDup ["dog"%string]
  ∧ (EmptyString ∉ ["cat"; "dog"]%string)
  ∧ NoDup (addAllIfMissing ["dog"%string] ["cat"; "dog"]%string).
Proof.
  assert (H1 : NoDup ["dog"%string]) by by_decide.
  assert (H2 : EmptyString ∉ ["cat"; "dog"]%string) by by_decide.
  split; [exact H1|]. split; [exact H2|].
  exact (proj2 (proj2 (addAllIfMissing_appends ["cat"; "dog"]%string
                         ["dog"%string])) H1 H2).
Defined.

Local Abbreviation untyped_region :=
  ({| region_id := "r0"; region_type := OtherRegionType;
      region_tags := Some []; region_points := [{| px := 3; py := 4 |}];
      region_boundingBox :=
        {| bb_left := 3; bb_top := 4; bb_width := 0; bb_height := 0 |} |}).

Lemma getRegionData_geometry_witness :
  Rectangle ≠ Polygon
  ∧ is_Some (regionTypeToType Rectangle)
  ∧ regionTypeToType Rectangle ≠ regionTypeToType Polygon
  ∧ rd_type (getRegionData untyped_region) = None
  ∧ rd_points (getRegionData untyped_region) = [{| px := 3; py := 4 |}].
Proof.
  assert (H1 : Rectangle ≠ Polygon) by discriminate.
  assert (H2 : is_Some (regionTypeToType Rectangle))
    by (eexists; reflexivity).
  destruct (getRegionData_geometry untyped_region) as (Hpts & Htype & Hinj).
  split; [exact H1|]. split; [exact H2|].
  split; [exact (Hinj Rectangle Polygon H1 H2)|].
  split; [exact (proj2 Htype eq_refl) | exact Hpts].
Defined.

Lemma getTagsDescriptor_resolves_witness :
  regionObjects two_regions !! O = Some r1
  ∧ ∃ td,
      getTagsDescriptor guard_undefined (ArgProjectTags project_tags)
        (ArgRegion O) two_regions
      = Return td two_regions
      ∧ tag_name <$> td
        = filter (λ n, n ∈ tag_name <$> project_tags) ["cat"%string]
      ∧ (∀ t, t ∈ td → t ∈ project_tags)
      ∧ (["cat"%string] = [] → td = []).
Proof.
  split; [reflexivity|].
  exact (getTagsDescriptor_resolves guard_undefined project_tags O r1
           ["cat"%string] two_regions eq_refl eq_refl eq_refl eq_refl).
Defined.

Lemma onRegionDelete_removes_first_witness :
  regionObjects two_regions !! O = Some r1
  ∧ ∃ c' arr',
      onRegionDelete "r1" two_regions = Return tt c'
      ∧ arrays c' !! regions (selectedAsset (props c')) = Some arr'
      ∧ items arr' = [Some 1%nat]
      ∧ regionObjects c' = [r1; r2].
Proof.
  split; [reflexivity|].
  destruct (onRegionDelete_removes_first "r1" two_regions regions_of_two
              [] [Some 1%nat] O r1)
    as (c' & arr' & sel & sarr & Hrun & Harr & Hitems & Hobjs & _).
  - reflexivity.
  - reflexivity.
  - constructor.
  - by_decide.
  - reflexivity.
  - reflexivity.
  - exists c', arr'. repeat split; assumption.
Defined.

Lemma onRegionDelete_absent_drops_last_witness :
  ("stale"%string ∉ ids_of (regionObjects two_regions) [Some 0; Some 1]%nat)
  ∧ ∃ c' arr',
      onRegionDelete "stale" two_regions = Return tt c'
      ∧ arrays c' !! regions (selectedAsset (props c')) = Some arr'
      ∧ items arr' = removelast [Some 0; Some 1]%nat
      ∧ regionObjects c' = [r1; r2].
Proof.
  assert (H : "stale"%string
              ∉ ids_of (regionObjects two_regions) [Some 0; Some 1]%nat)
    by by_decide.
  split; [exact H|].
  apply (onRegionDelete_absent_drops_last "stale" two_regions regions_of_two).
  - reflexivity.
  - regions_here.
  - exact H.
Defined.

Lemma onRegionMove_moves_points_witness :
  regionObjects two_regions !! 1%nat = Some r2
  ∧ ∃ c' sel sarr,
      onRegionMove unscaled "r2" a_move two_regions = Return tt c'
      ∧ regionObjects c'
        = <[1%nat := set_points (rd_points a_move) r2]> [r1; r2]
      ∧ arrays c' !! regions (selectedAsset (props c')) = Some regions_of_two
      ∧ props c' = props two_regions
      ∧ selectedRegions (state c') = Some sel
      ∧ arrays two_regions !! sel = None
      ∧ arrays c' !! sel = Some sarr ∧ items sarr = [Some 1%nat]
      ∧ host c' = [Some (selectedAsset (props two_regions))]
      ∧ editor c' = editor two_regions.
Proof.
  split; [reflexivity|].
  apply (onRegionMove_moves_points unscaled "r2" a_move two_regions
           regions_of_two [Some O] [] 1%nat r2).
  - reflexivity.
  - reflexivity.
  - regions_here.
  - by_decide.
  - reflexivity.
  - reflexivity.
Defined.

Lemma clearRegions_empties_witness :
  arrays two_regions !! O = Some regions_of_two
  ∧ ∃ c' arr',
      clearRegions two_regions = Return tt c'
      ∧ arrays c' !! regions (selectedAsset (props c')) = Some arr'
      ∧ items arr' = []
      ∧ asset_state (asset (selectedAsset (props c'))) = Visited
      ∧ length (host c') = 2%nat.
Proof.
  split; [reflexivity|].
  destruct (clearRegions_empties two_regions regions_of_two)
    as (c' & arr' & Hrun & Harr & Hitems & Hstate & Hhost & _).
  - reflexivity.
  - regions_here.
  - exists c', arr'. repeat split; assumption.
Defined.

Lemma cutRegions_removes_selected_witness :
  selectedRegions (state r2_selected) = Some 1%nat
  ∧ ∃ c' arr',
      cutRegions r2_selected = Return tt c'
      ∧ arrays c' !! regions (selectedAsset (props c')) = Some arr'
      ∧ items arr' `sublist_of` [Some 0; Some 1]%nat
      ∧ ids_of [r1; r2] (items arr')
        = filter (λ t, t ∉ ids_of [r1; r2] [Some 1%nat])
            (ids_of [r1; r2] [Some 0; Some 1]%nat)
      ∧ regionObjects c' = [r1; r2]
      ∧ clipBoard c' = Some [Some r2].
Proof.
  split; [reflexivity|].
  apply (cutRegions_removes_selected r2_selected regions_of_two
           {| items := [Some 1%nat]; minus1 := None |} 1%nat).
  - reflexivity.
  - discriminate.
  - reflexivity.
  - reflexivity.
  - regions_here.
  - regions_here.
  - by_decide.
  - by_decide.
  - intros id Hin.
    repeat (apply elem_of_cons in Hin as [-> | Hin]; [by_decide|]).
    inversion Hin.
Defined.

Lemma cutRegions_own_array_witness :
  selectedRegions (state all_selected)
  = Some (regions (selectedAsset (props all_selected)))
  ∧ ∃ c' arr',
      cutRegions all_selected = Return tt c'
      ∧ arrays c' !! regions (selectedAsset (props c')) = Some arr'
      ∧ items arr' = odds [Some 0; Some 1; Some 2]%nat
      ∧ regionObjects c' = [r1; r2; r3]
      ∧ clipBoard c' = Some [Some r1; Some r2; Some r3].
Proof.
  split; [reflexivity|].
  apply (cutRegions_own_array all_selected regions_of_three).
  - reflexivity.
  - reflexivity.
  - regions_here.
  - by_decide.
Defined.

Lemma onRegionSelected_absent_witness :
  ("stale"%string ∉ ids_of (regionObjects two_regions) [Some 0; Some 1]%nat)
  ∧ multiSelect (state two_regions) = false
  ∧ onRegionSelected "stale" two_regions
    = Return tt
        (with_state {| selectedRegions := Some 2%nat; canvasEnabled := true;
                       multiSelect := false |}
           (with_arrays
              (arrays two_regions ++ [{| items := [None]; minus1 := None |}])
              two_regions)).
Proof.
  assert (H : "stale"%string
              ∉ ids_of (regionObjects two_regions) [Some 0; Some 1]%nat)
    by by_decide.
  split; [exact H|]. split; [reflexivity|].
  refine (proj1 (onRegionSelected_absent "stale" two_regions regions_of_two
                   eq_refl _ H) eq_refl).
  regions_here.
Defined.

Lemma componentDidUpdate_same_asset_witness :
  asset_id (asset (selectedAsset (props two_regions)))
  = asset_id (asset (selectedAsset previous_mode))
  ∧ componentDidUpdate guard_undefined previous_mode two_regions
    = Return tt
        (with_editor {| RM := []; AS := O |} two_regions).
Proof.
  split; [reflexivity|].
  exact (componentDidUpdate_same_asset guard_undefined previous_mode
           two_regions eq_refl eq_refl).
Defined.

Lemma updateRegions_draws_nothing_witness :
  arrays two_regions !! O = Some regions_of_two
  ∧ updateRegions guard_undefined unscaled two_regions = Throw two_regions.
Proof.
  split; [reflexivity|].
  refine (updateRegions_draws_nothing guard_undefined unscaled two_regions
            regions_of_two eq_refl _).
  regions_here.
Defined.

Local Abbreviation r2_unattached :=
  (sample_canvas [r1; r2] [Some O] [] Visited None None false).

Lemma add_then_delete_restores_witness :
  ("r2"%string ∉ ids_of (regionObjects r2_unattached) [Some O])
  ∧ ∃ md c1 md' c2,
      addRegionToAsset 1%nat r2_unattached = Return md c1
      ∧ deleteRegionFromAsset "r2" c1 = Return md' c2
      ∧ arrays c2 = arrays r2_unattached
      ∧ regionObjects c2 = [r1; r2]
      ∧ asset_state (asset (selectedAsset (props c2))) = Tagged.
Proof.
  assert (H : "r2"%string ∉ ids_of (regionObjects r2_unattached) [Some O])
    by by_decide.
  split; [exact H|].
  apply (add_then_delete_restores 1%nat r2 r2_unattached
           {| items := [Some O]; minus1 := None |}).
  - reflexivity.
  - regions_here.
  - reflexivity.
  - exact H.
Defined.

Lemma pasteRegions_throws_on_snapshot_witness :
  clipBoard two_regions = None
  ∧ pasteRegions guard_undefined unscaled two_regions = Return tt two_regions
  ∧ pasteRegions guard_undefined unscaled copied_r1 = Throw copied_r1
  ∧ ∃ c1, copyRegions r2_selected = Return tt c1
          ∧ arrays c1 = arrays r2_selected ∧ props c1 = props r2_selected
          ∧ pasteRegions guard_undefined unscaled c1 = Throw c1.
Proof.
  destruct (pasteRegions_throws_on_snapshot guard_undefined unscaled
              two_regions) as (Hnone & _ & _).
  destruct (pasteRegions_throws_on_snapshot guard_undefined unscaled
              copied_r1) as (_ & Hsome & _).
  destruct (pasteRegions_throws_on_snapshot guard_undefined unscaled
              r2_selected) as (_ & _ & Hcopy).
  split; [reflexivity|]. split; [exact (Hnone eq_refl)|].
  split; [exact (Hsome [Some r1] eq_refl)|].
  exact (Hcopy 1%nat {| items := [Some 1%nat]; minus1 := None |}
           eq_refl eq_refl).
Defined.

Local Abbreviation r1_multi_selected :=
  (sample_canvas [r1; r2] [Some 0; Some 1]%nat [Some O] Tagged None None
     true).

Lemma onRegionSelected_multi_keeps_witness :
  multiSelect (state r1_multi_selected) = true
  ∧ ("r1"%string
     ∈ ids_of (regionObjects r1_multi_selected) [Some 0; Some 1]%nat)
  ∧ ("r1"%string ∈ ids_of (regionObjects r1_multi_selected) [Some O])
  ∧ onRegionSelected "r1" r1_multi_selected = Return tt r1_multi_selected.
Proof.
  assert (H1 : "r1"%string
               ∈ ids_of (regionObjects r1_multi_selected)
                   [Some 0; Some 1]%nat) by by_decide.
  assert (H2 : "r1"%string
               ∈ ids_of (regionObjects r1_multi_selected) [Some O])
    by by_decide.
  split; [reflexivity|]. split; [exact H1|]. split; [exact H2|].
  apply (onRegionSelected_multi_keeps "r1" r1_multi_selected regions_of_two
           {| items := [Some O]; minus1 := None |} 1%nat).
  - reflexivity.
  - regions_here.
  - reflexivity.
  - reflexivity.
  - regions_here.
  - reflexivity.
  - exact H1.
  - exact H2.
Defined.
